(** * The Nystroem method of mlpack: a shallow embedding and its properties

    Source: src/mlpack/methods/nystroem_method/nystroem_method_impl.hpp

    The class template [NystroemMethod<KernelType, PointSelectionPolicy>]
    approximates a kernel matrix from [rank] landmark points.  [Apply]
    asks the selection policy for the landmarks, fills the rank x rank
    mini-kernel and the n x rank semi-kernel with kernel evaluations,
    takes the singular value decomposition of the mini-kernel and
    assembles the output factor.

    The embedding keeps the shape of the code:
    - an [arma::mat] is a record of its dimensions and its column-major
      memory; element, column and index-vector accesses are the
      bounds-checked Armadillo accessors, an access out of range being the
      exception [IndexOutOfBounds];
    - the [for] loops are folds over [iota 0 n] in the exception monad;
    - [Apply] runs in a state-and-exception monad over a [world] made of
      the object ([data], [rank]), the caller's [output] matrix, the state
      of the random number generator a selection policy may draw from, and
      what has been written to [std::cout];
    - the scalar type [double], the template parameters ([Evaluate] of
      [KernelType], [Select] of [PointSelectionPolicy]) and Armadillo's
      [svd] are parameters of the development. *)

From HB Require Import structures.
From mathcomp Require Import boot order algebra.
From Stdlib Require Import String.
Close Scope string_scope.

Set Implicit Arguments.
Unset Strict Implicit.
Unset Printing Implicit Defensive.

(** ** Exceptions *)

(** [IndexOutOfBounds] and [IncompatibleDimensions] are the two
    [std::logic_error]s Armadillo raises in the operations [Apply] uses.
    The three others are the kinds a selection policy may raise; no line
    of the file under study constructs them. *)
Inductive exn : Type :=
  | IndexOutOfBounds
  | IncompatibleDimensions
  | InvalidArgument
  | ConvergenceError
  | NumericalDegeneracy.

Inductive result (A : Type) : Type :=
  | Ok (a : A)
  | Err (e : exn).
Arguments Ok {A} a.
Arguments Err {A} e.

Definition rbind {A B : Type} (r : result A) (k : A -> result B) : result B :=
  match r with
  | Ok a => k a
  | Err e => Err e
  end.

Declare Scope result_scope.
Delimit Scope result_scope with res.
Notation "x <- r ;; k" := (rbind r (fun x => k))
  (at level 61, r at next level, right associativity) : result_scope.

(** [for (size_t i = 0; i < n; ++i) body] is [for_ (iota 0 n) body]: the
    body is run on each index in turn and the first exception ends the
    loop. *)
Fixpoint for_ {T : Type} (idx : seq nat) (body : nat -> T -> result T) (s : T)
  : result T :=
  match idx with
  | [::] => Ok s
  | i :: idx' =>
      match body i s with
      | Ok s' => for_ idx' body s'
      | Err e => Err e
      end
  end.

(** ** Scalars *)

(** The operations of [double] the code uses.  No law is assumed of them:
    the structural results hold of any arithmetic, rounding or not. *)
Class Scalar (F : Type) : Type := {
  fzero : F;
  fone : F;
  fadd : F -> F -> F;
  fmul : F -> F -> F;
  fdiv : F -> F -> F;
  fsqrt : F -> F
}.

(** ** Matrices *)

(** [arma::mat]: [n_rows], [n_cols] and the column-major memory [mem], the
    element (i, j) sitting at offset [j * n_rows + i]. *)
Record mat (F : Type) : Type := Mat { n_rows : nat; n_cols : nat; mem : seq F }.
Arguments Mat {F} n_rows n_cols mem.

Section Armadillo.

Context {F : Type} {SF : Scalar F}.

Definition offset (M : mat F) (i j : nat) : nat := j * n_rows M + i.

(** The unchecked read of element (i, j). *)
Definition elem (M : mat F) (i j : nat) : F := nth fzero (mem M) (offset M i j).

Definition in_bounds (M : mat F) (i j : nat) : bool :=
  (i < n_rows M) && (j < n_cols M).

(** [M(i, j)] read: bounds-checked. *)
Definition mat_at (M : mat F) (i j : nat) : result F :=
  if in_bounds M i j then Ok (elem M i j) else Err IndexOutOfBounds.

(** [M(i, j) = v]: bounds-checked write. *)
Definition mat_set (M : mat F) (i j : nat) (v : F) : result (mat F) :=
  if in_bounds M i j
  then Ok (Mat (n_rows M) (n_cols M) (set_nth fzero (mem M) (offset M i j) v))
  else Err IndexOutOfBounds.

(** [M.col(j)]: bounds-checked; the column as the sequence of its entries. *)
Definition col (M : mat F) (j : nat) : result (seq F) :=
  if j < n_cols M
  then Ok (take (n_rows M) (drop (j * n_rows M) (mem M)))
  else Err IndexOutOfBounds.

(** [v(i)] on an [arma::Col<size_t>]: bounds-checked. *)
Definition idx_at (v : seq nat) (i : nat) : result nat :=
  if i < size v then Ok (nth 0 v i) else Err IndexOutOfBounds.

(** The matrix whose entry (i, j) is [f i j]. *)
Definition mk_mat (r c : nat) (f : nat -> nat -> F) : mat F :=
  Mat r c [seq f (k %% r) (k %/ r) | k <- iota 0 (c * r)].

(** [A * B]: the dimensions are checked, and entry (i, j) accumulates the
    products [A(i, k) * B(k, j)] for k = 0 .. n_cols A - 1. *)
Definition dot (n : nat) (f g : nat -> F) : F :=
  foldr (fun k acc => fadd (fmul (f k) (g k)) acc) fzero (iota 0 n).

Definition mat_mul (A B : mat F) : result (mat F) :=
  if n_cols A == n_rows B
  then Ok (mk_mat (n_rows A) (n_cols B)
             (fun i j => dot (n_cols A) (elem A i) (fun k => elem B k j)))
  else Err IncompatibleDimensions.

(** [arma::diagmat(v)]: the square matrix with [v] on its diagonal. *)
Definition diagmat (v : seq F) : mat F :=
  mk_mat (size v) (size v) (fun i j => if i == j then nth fzero v i else fzero).

(** [A.t()]. *)
Definition trans (A : mat F) : mat F :=
  mk_mat (n_cols A) (n_rows A) (fun i j => elem A j i).

(** [1.0 / sqrt(s)], element by element. *)
Definition inv_sqrt (s : seq F) : seq F := [seq fdiv fone (fsqrt x) | x <- s].

End Armadillo.

(** What the embedding takes from the Armadillo library: [arma::svd], and
    the contents of memory that a constructor [arma::mat M(r, c)] leaves
    uninitialised. *)
Class Arma (F : Type) : Type := {
  svd : mat F -> mat F * seq F * mat F;
  junk : nat -> F
}.

(** [arma::mat M(r, c)], where the constructor returns.  Its refusal of a
    size that overflows and the exhaustion of memory are not part of the
    embedding: what is said of [Apply] is said of calls whose two blocks
    have been allocated. *)
Definition new_mat {F : Type} {AF : Arma F} (r c : nat) : mat F :=
  Mat r c (mkseq junk (c * r)).

(** ** The template parameters *)

(** [KernelType]: [kernel.Evaluate(a, b)] on two columns. *)
Class KernelType (F : Type) : Type := {
  Evaluate : seq F -> seq F -> F
}.

(** What [PointSelectionPolicy::Select] returns decides the overload of
    [GetKernelMatrix]: a vector of column indices into the dataset
    ([arma::Col<size_t>]) or a freshly allocated matrix of points
    ([arma::mat*]). *)
Inductive landmarks (F : Type) : Type :=
  | Indices (selectedPoints : seq nat)
  | Points (selectedData : mat F).
Arguments Indices {F} selectedPoints.
Arguments Points {F} selectedData.

(** [PointSelectionPolicy::Select(data, rank)]: it may raise, and it may
    draw from the global random number generator, whose state has type
    [Rng]. *)
Class PointSelectionPolicy (F Rng : Type) : Type := {
  Select : mat F -> nat -> Rng -> result (landmarks F) * Rng
}.

(** ** The class and the state [Apply] runs in *)

(** The members of [NystroemMethod]; [kernel] is the [KernelType]
    instance. *)
Record NystroemMethod (F : Type) : Type := Build_NystroemMethod {
  data : mat F;
  rank : nat
}.

(** What goes to [std::cout]. *)
Inductive out_event (F : Type) : Type :=
  | OutStr (s : string)
  | OutEndl
  | OutMat (M : mat F)
  | OutVec (v : seq F).
Arguments OutStr {F} s.
Arguments OutEndl {F}.
Arguments OutMat {F} M.
Arguments OutVec {F} v.

Record world (F Rng : Type) : Type := World {
  this : NystroemMethod F;
  output : mat F;
  rng : Rng;
  cout : seq (out_event F)
}.

(** State and exceptions: the state reached when an exception is raised is
    kept. *)
Definition M (F Rng A : Type) : Type := world F Rng -> result A * world F Rng.

Section Monad.

Context {F Rng : Type}.

Definition ret {A : Type} (a : A) : M F Rng A := fun w => (Ok a, w).

Definition bind {A B : Type} (m : M F Rng A) (k : A -> M F Rng B) : M F Rng B :=
  fun w => match m w with
           | (Ok a, w') => k a w'
           | (Err e, w') => (Err e, w')
           end.

Definition lift {A : Type} (r : result A) : M F Rng A := fun w => (r, w).

Definition get_this : M F Rng (NystroemMethod F) := fun w => (Ok (this w), w).

Definition set_output (out : mat F) : M F Rng unit :=
  fun w => (Ok tt, World (this w) out (rng w) (cout w)).

Definition print (evs : seq (out_event F)) : M F Rng unit :=
  fun w => (Ok tt, World (this w) (output w) (rng w) (cout w ++ evs)).

Definition call_Select {PS : PointSelectionPolicy F Rng}
    (d : mat F) (k : nat) : M F Rng (landmarks F) :=
  fun w => let (r, g) := Select d k (rng w) in
           (r, World (this w) (output w) g (cout w)).

End Monad.

Declare Scope monad_scope.
Delimit Scope monad_scope with monad.
Notation "x <- m ;; k" := (bind m (fun x => k))
  (at level 61, m at next level, right associativity) : monad_scope.
Notation "m ;; k" := (bind m (fun _ => k))
  (at level 61, right associativity) : monad_scope.

(** ** The code *)

Section Code.

Context {F Rng : Type} {SF : Scalar F} {AF : Arma F} {KT : KernelType F}
        {PS : PointSelectionPolicy F Rng}.

(** [for i < r: for j < c: K(i, j) = entry(i, j)], the shape of the four
    loop nests of the two [GetKernelMatrix] overloads. *)
Definition fill (r c : nat) (entry : nat -> nat -> result F) (K : mat F)
  : result (mat F) :=
  for_ (iota 0 r) (fun i K =>
    for_ (iota 0 c) (fun j K =>
      (v <- entry i j ;; mat_set K i j v)%res) K) K.

(** [GetKernelMatrix(const arma::mat* selectedData, miniKernel, semiKernel)].
    The final [delete selectedData] frees the points; memory management is
    not part of the embedding. *)
Definition GetKernelMatrix_points (obj : NystroemMethod F)
    (selectedData : mat F) (miniKernel semiKernel : mat F)
  : result (mat F * mat F) :=
  (miniKernel' <- fill (rank obj) (rank obj) (fun i j =>
       a <- col selectedData i ;;
       b <- col selectedData j ;;
       Ok (Evaluate a b)) miniKernel ;;
   semiKernel' <- fill (n_cols (data obj)) (rank obj) (fun i j =>
       a <- col (data obj) i ;;
       b <- col selectedData j ;;
       Ok (Evaluate a b)) semiKernel ;;
   Ok (miniKernel', semiKernel'))%res.

(** [GetKernelMatrix(const arma::Col<size_t>& selectedPoints, miniKernel,
    semiKernel)]. *)
Definition GetKernelMatrix_indices (obj : NystroemMethod F)
    (selectedPoints : seq nat) (miniKernel semiKernel : mat F)
  : result (mat F * mat F) :=
  (miniKernel' <- fill (rank obj) (rank obj) (fun i j =>
       si <- idx_at selectedPoints i ;;
       a <- col (data obj) si ;;
       sj <- idx_at selectedPoints j ;;
       b <- col (data obj) sj ;;
       Ok (Evaluate a b)) miniKernel ;;
   semiKernel' <- fill (n_cols (data obj)) (rank obj) (fun i j =>
       a <- col (data obj) i ;;
       sj <- idx_at selectedPoints j ;;
       b <- col (data obj) sj ;;
       Ok (Evaluate a b)) semiKernel ;;
   Ok (miniKernel', semiKernel'))%res.

(** Overload resolution on what [Select] returned. *)
Definition GetKernelMatrix (obj : NystroemMethod F) (lm : landmarks F)
    (miniKernel semiKernel : mat F) : result (mat F * mat F) :=
  match lm with
  | Indices selectedPoints =>
      GetKernelMatrix_indices obj selectedPoints miniKernel semiKernel
  | Points selectedData =>
      GetKernelMatrix_points obj selectedData miniKernel semiKernel
  end.

(** [semiKernel * U * normalization * V], as the expression associates. *)
Definition assemble (semiKernel U normalization V : mat F) : result (mat F) :=
  (SU <- mat_mul semiKernel U ;;
   SUN <- mat_mul SU normalization ;;
   mat_mul SUN V)%res.

(** The lines the reconstruction step writes to [std::cout]. *)
Definition log_kernels (semiKernel miniKernel : mat F) : seq (out_event F) :=
  [:: OutStr "Print semiKernel in Apply method"; OutEndl;
      OutMat semiKernel; OutEndl;
      OutStr "Print miniKernel in Apply method"; OutEndl;
      OutMat miniKernel; OutEndl].

Definition log_svd (U : mat F) (s : seq F) (V : mat F) : seq (out_event F) :=
  [:: OutStr "Print U in Apply method"; OutEndl; OutMat U; OutEndl;
      OutStr "Print V in Apply method"; OutEndl; OutMat V; OutEndl;
      OutStr "Print s in Apply method"; OutEndl; OutVec s; OutEndl].

Definition log_normalization (normalization : mat F) : seq (out_event F) :=
  [:: OutStr "Print normalization in Apply method"; OutEndl;
      OutMat normalization; OutEndl].

Definition log_output (out : mat F) : seq (out_event F) :=
  [:: OutStr "Print output in Apply method"; OutEndl; OutMat out; OutEndl].

(** [Apply(arma::mat& output)]. *)
Definition Apply : M F Rng unit :=
  (obj <- get_this ;;
   let miniKernel := new_mat (rank obj) (rank obj) in
   let semiKernel := new_mat (n_cols (data obj)) (rank obj) in
   lm <- call_Select (data obj) (rank obj) ;;
   ks <- lift (GetKernelMatrix obj lm miniKernel semiKernel) ;;
   let miniKernel := ks.1 in
   let semiKernel := ks.2 in
   print (log_kernels semiKernel miniKernel) ;;
   let: (U, s, V) := svd miniKernel in
   print (log_svd U s V) ;;
   let normalization := diagmat (inv_sqrt s) in
   print (log_normalization normalization) ;;
   out <- lift (assemble semiKernel U normalization V) ;;
   set_output out ;;
   print (log_output out))%monad.

(** The j-th landmark, as the two overloads read it:
    [data.col(selectedPoints(j))] or [selectedData->col(j)]. *)
Definition landmark (obj : NystroemMethod F) (lm : landmarks F) (j : nat)
  : result (seq F) :=
  match lm with
  | Indices selectedPoints =>
      (sj <- idx_at selectedPoints j ;; col (data obj) sj)%res
  | Points selectedData => col selectedData j
  end.

(** The two blocks as [Apply] allocates them. *)
Definition miniKernel0 (obj : NystroemMethod F) : mat F :=
  new_mat (rank obj) (rank obj).

Definition semiKernel0 (obj : NystroemMethod F) : mat F :=
  new_mat (n_cols (data obj)) (rank obj).

(** The factor the specification describes: the last operand transposed. *)
Definition assemble_Vt (semiKernel U normalization V : mat F) : result (mat F) :=
  assemble semiKernel U normalization (trans V).

(** What has been written to [std::cout] when the product is about to be
    formed. *)
Definition log_before_product (mk sk : mat F) : seq (out_event F) :=
  let: (U, s, V) := svd mk in
  log_kernels sk mk ++ log_svd U s V ++ log_normalization (diagmat (inv_sqrt s)).

(** A landmark set of [rank] landmarks over the dataset: [rank] indices
    of columns of [data], or a matrix of [rank] points. *)
Definition landmark_set (obj : NystroemMethod F) (lm : landmarks F) : bool :=
  match lm with
  | Indices selectedPoints =>
      (size selectedPoints == rank obj)
      && all (fun p => p < n_cols (data obj)) selectedPoints
  | Points selectedData => n_cols selectedData == rank obj
  end.

End Code.

(** ** Decidable equality on the data *)

Definition exn_code (e : exn) : nat :=
  match e with
  | IndexOutOfBounds => 0
  | IncompatibleDimensions => 1
  | InvalidArgument => 2
  | ConvergenceError => 3
  | NumericalDegeneracy => 4
  end.

Definition exn_decode (n : nat) : exn :=
  match n with
  | 0 => IndexOutOfBounds
  | 1 => IncompatibleDimensions
  | 2 => InvalidArgument
  | 3 => ConvergenceError
  | _ => NumericalDegeneracy
  end.

Lemma exn_codeK : cancel exn_code exn_decode.
Proof. by case. Qed.

HB.instance Definition _ := Equality.copy exn (can_type exn_codeK).

Definition result_code (A : Type) (r : result A) : A + exn :=
  match r with Ok a => inl a | Err e => inr e end.

Definition result_decode (A : Type) (r : A + exn) : result A :=
  match r with inl a => Ok a | inr e => Err e end.

Lemma result_codeK (A : Type) : cancel (@result_code A) (@result_decode A).
Proof. by case. Qed.

HB.instance Definition _ (A : eqType) :=
  Equality.copy (result A) (can_type (@result_codeK A)).

Definition mat_code (F : Type) (M : mat F) : nat * nat * seq F :=
  (n_rows M, n_cols M, mem M).

Definition mat_decode (F : Type) (c : nat * nat * seq F) : mat F :=
  Mat c.1.1 c.1.2 c.2.

Lemma mat_codeK (F : Type) : cancel (@mat_code F) (@mat_decode F).
Proof. by case. Qed.

HB.instance Definition _ (F : eqType) :=
  Equality.copy (mat F) (can_type (@mat_codeK F)).

(** ** A concrete arithmetic *)

(** Exact rationals with the special values of IEEE 754.  Finite results
    are not rounded and never overflow, and there is one zero, of positive
    sign; the special values arise and propagate as they do for [double]:
    [1.0 / 0.0] is [+inf], [0.0 * inf] and [inf - inf] are NaN. *)
Inductive xrat : Type :=
  | Fin (q : rat)
  | PInf
  | NInf
  | NaN.

Definition xrat_code (x : xrat) : rat + nat :=
  match x with Fin q => inl q | PInf => inr 0 | NInf => inr 1 | NaN => inr 2 end.

Definition xrat_decode (c : rat + nat) : xrat :=
  match c with inl q => Fin q | inr 0 => PInf | inr 1 => NInf | inr _ => NaN end.

Lemma xrat_codeK : cancel xrat_code xrat_decode.
Proof. by case. Qed.

HB.instance Definition _ := Equality.copy xrat (can_type xrat_codeK).

Definition finite (x : xrat) : bool :=
  match x with Fin _ => true | _ => false end.

(** The infinity of the sign of [q] ([q] not zero). *)
Definition inf_of_sign (q : rat) : xrat := if (0 < q)%R then PInf else NInf.

Definition xopp (x : xrat) : xrat :=
  match x with Fin q => Fin (- q)%R | PInf => NInf | NInf => PInf | NaN => NaN end.

Definition xadd (x y : xrat) : xrat :=
  match x, y with
  | NaN, _ | _, NaN => NaN
  | Fin a, Fin b => Fin (a + b)%R
  | PInf, NInf | NInf, PInf => NaN
  | PInf, _ | _, PInf => PInf
  | NInf, _ | _, NInf => NInf
  end.

Definition xmul (x y : xrat) : xrat :=
  match x, y with
  | NaN, _ | _, NaN => NaN
  | Fin a, Fin b => Fin (a * b)%R
  | Fin a, PInf | PInf, Fin a => if a == 0%R then NaN else inf_of_sign a
  | Fin a, NInf | NInf, Fin a => if a == 0%R then NaN else xopp (inf_of_sign a)
  | PInf, PInf | NInf, NInf => PInf
  | PInf, NInf | NInf, PInf => NInf
  end.

Definition xdiv (x y : xrat) : xrat :=
  match x, y with
  | NaN, _ | _, NaN => NaN
  | Fin a, Fin b =>
      if b == 0%R then (if a == 0%R then NaN else inf_of_sign a)
      else Fin (a / b)%R
  | Fin _, PInf | Fin _, NInf => Fin 0%R
  | PInf, Fin b => if (0 <= b)%R then PInf else NInf
  | NInf, Fin b => if (0 <= b)%R then NInf else PInf
  | _, _ => NaN
  end.

(** The square root of a rational: exact on the squares of rationals, which
    is where the examples below use it; elsewhere the quotient of the
    integer square roots stands for the rounded result. *)
Definition sqrt_rat (q : rat) : rat :=
  ((Nat.sqrt `|numq q|)%:R / (Nat.sqrt `|denq q|)%:R)%R.

Definition xsqrt (x : xrat) : xrat :=
  match x with
  | Fin q => if (q < 0)%R then NaN else Fin (sqrt_rat q)
  | PInf => PInf
  | NInf | NaN => NaN
  end.

#[export] Instance xrat_scalar : Scalar xrat :=
  {| fzero := Fin 0%R; fone := Fin 1%R; fadd := xadd; fmul := xmul;
     fdiv := xdiv; fsqrt := xsqrt |}.

(** ** Instances of the template parameters, for the examples *)

(** A kernel: the dot product of the two points. *)
Definition LinearKernel {F : Type} {SF : Scalar F} : KernelType F :=
  {| Evaluate := fun a b =>
       foldr (fun p acc => fadd (fmul p.1 p.2) acc) fzero (zip a b) |}.

(** A selection policy: the indices 0 .. rank - 1, in order.  It validates
    nothing and draws no random number. *)
Definition FirstIndices {F Rng : Type} : PointSelectionPolicy F Rng :=
  {| Select := fun _ k g => (Ok (Indices (iota 0 k)), g) |}.

(** [arma::svd] given by a table of decompositions.  On a matrix the table
    does not list, the decomposition fails, which leaves [U], [s] and [V]
    empty; that is also the decomposition of the empty matrix.  Fresh
    memory holds NaN. *)
Definition svd_table (F : eqType)
    (tbl : seq (mat F * (mat F * seq F * mat F))) (K : mat F)
  : mat F * seq F * mat F :=
  nth (Mat 0 0 [::], [::], Mat 0 0 [::]) [seq e.2 | e <- tbl]
      (find (fun e => e.1 == K) tbl).

Definition arma_table (tbl : seq (mat xrat * (mat xrat * seq xrat * mat xrat)))
  : Arma xrat :=
  {| svd := svd_table tbl; junk := fun _ => NaN |}.

(** What [arma::svd] promises of the dimensions of its results on a matrix
    [K]: [U] and [V] are square of the dimensions of [K], and [s] has
    min(n_rows, n_cols) entries; or the decomposition has failed and the
    three are empty. *)
Definition svd_dims {F : Type} (K : mat F) (usv : mat F * seq F * mat F) : bool :=
  let: (U, s, V) := usv in
  [&& n_rows U == n_rows K, n_cols U == n_rows K,
      size s == minn (n_rows K) (n_cols K),
      n_rows V == n_cols K & n_cols V == n_cols K]
  || [&& n_rows U == 0, n_cols U == 0, size s == 0,
         n_rows V == 0 & n_cols V == 0].

(** The columns of the dataset, and the true n x n kernel matrix. *)
Definition point {F : Type} {SF : Scalar F} (obj : NystroemMethod F) (i : nat)
  : seq F :=
  if col (data obj) i is Ok a then a else [::].

Definition kernel_matrix {F : Type} {SF : Scalar F} {KT : KernelType F}
    (obj : NystroemMethod F) : mat F :=
  mk_mat (n_cols (data obj)) (n_cols (data obj))
    (fun i j => Evaluate (point obj i) (point obj j)).

(** The n x n identity. *)
Definition identity_mat {F : Type} {SF : Scalar F} (n : nat) : mat F :=
  diagmat (nseq n fone).

(** [U], [s], [V] are the factors of a singular value decomposition of
    [K], checked by computing: [U * diagmat(s) * V.t()] is [K], with as
    many singular values as [K] has columns, and the columns of [U] and
    those of [V] are orthonormal. *)
Definition svd_factors {F : eqType} {SF : Scalar F}
    (K U : mat F) (s : seq F) (V : mat F) : bool :=
  [&& size s == n_cols K,
      (US <- mat_mul U (diagmat s) ;; mat_mul US (trans V))%res == Ok K,
      mat_mul (trans U) U == Ok (identity_mat (n_cols U))
    & mat_mul (trans V) V == Ok (identity_mat (n_cols V))].

(** A singular value decomposition in the concrete arithmetic: the
    singular values are moreover finite, non-negative and in descending
    order. *)
Definition is_svd (K U : mat xrat) (s : seq xrat) (V : mat xrat) : bool :=
  [&& svd_factors K U s V,
      all (fun x => if x is Fin a then (0 <= a)%R else false) s
    & sorted (fun x y => if (x, y) is (Fin a, Fin b) then (b <= a)%R else false) s].

(** ** Exact arithmetic *)

(** The arithmetic of an ordered field [R], with a function [sqrtR] for
    the square root: the setting in which the factor is exact.  [mx_of]
    reads an [arma::mat] as a matrix of MathComp, and a matrix is positive
    semidefinite when its quadratic form is nowhere negative. *)
Definition field_scalar (R : realFieldType) (sqrtR : R -> R) : Scalar R :=
  {| fzero := 0%R; fone := 1%R; fadd := +%R; fmul := *%R;
     fdiv := fun x y => (x / y)%R; fsqrt := sqrtR |}.

Definition mx_of {R : realFieldType} (m p : nat) (A : mat R) : 'M[R]_(m, p) :=
  \matrix_(i < m, j < p) nth 0%R (mem A) (j * n_rows A + i).

Definition psd {R : realFieldType} (K : mat R) : Prop :=
  forall v : 'rV[R]_(n_rows K),
    (0 <= (v *m mx_of (n_rows K) (n_rows K) K *m v^T) 0 0)%R.

(** The singular values are positive and [sqrtR] is exact on them. *)
Definition exact_roots {R : realFieldType} (sqrtR : R -> R) (s : seq R) : bool :=
  all (fun x => (0 < x)%R && (sqrtR x * sqrtR x == x)%R) s.

(** ** The examples *)

(** Three points on the axes of the space: (2,0,0), (0,1,0), (0,0,4).  The
    Gram matrix of the dot product is diag(4, 1, 16); its singular values
    in descending order are 16, 4, 1, with singular vectors e3, e1, e2.
    The entries are given by an injection [c] of the natural numbers into
    the scalars. *)
Definition axes3 {F : Type} (c : nat -> F) : mat F :=
  Mat 3 3 [:: c 2; c 0; c 0;  c 0; c 1; c 0;  c 0; c 0; c 4].

Definition gram_axes3 {F : Type} (c : nat -> F) : mat F :=
  Mat 3 3 [:: c 4; c 0; c 0;  c 0; c 1; c 0;  c 0; c 0; c 16].

Definition cycle3 {F : Type} (c : nat -> F) : mat F :=
  Mat 3 3 [:: c 0; c 0; c 1;  c 1; c 0; c 0;  c 0; c 1; c 0].

Definition q (n : nat) : xrat := Fin n%:R.

Definition data3 : mat xrat := axes3 q.
Definition gram3 : mat xrat := gram_axes3 q.
Definition perm3 : mat xrat := cycle3 q.

Definition sigma3 : seq xrat := [:: q 16; q 4; q 1].

Definition arma3 : Arma xrat :=
  arma_table [:: (gram3, (perm3, sigma3, perm3))].

Definition idx3 : landmarks xrat := Indices [:: 0; 1; 2].

Definition world3 : world xrat nat :=
  World (Build_NystroemMethod data3 3) (Mat 0 0 [::]) 0 [::].

(** The same three points in the field of the rationals, where the square
    root is [sqrt_rat]. *)
Definition rat_scalar : Scalar rat := field_scalar sqrt_rat.

Definition rat_kernel : KernelType rat := LinearKernel (SF := rat_scalar).

Definition rat_of (n : nat) : rat := n%:R.

Definition arma3_rat : Arma rat :=
  {| svd := svd_table [:: (gram_axes3 rat_of,
                           (cycle3 rat_of, [:: rat_of 16; rat_of 4; rat_of 1],
                            cycle3 rat_of))];
     junk := fun _ => 0%R |}.

Definition world3_rat : world rat nat :=
  World (Build_NystroemMethod (axes3 rat_of) 3) (Mat 0 0 [::]) 0 [::].

(** Two points on the line, 0 and 1.  The Gram matrix of the dot product
    has the singular values 1 and 0. *)
Definition data2 : mat xrat := Mat 1 2 [:: q 0; q 1].

Definition gram2 : mat xrat := Mat 2 2 [:: q 0; q 0; q 0; q 1].

Definition swap2 : mat xrat := Mat 2 2 [:: q 0; q 1; q 1; q 0].

Definition sigma2 : seq xrat := [:: q 1; q 0].

Definition arma2 : Arma xrat :=
  arma_table [:: (gram2, (swap2, sigma2, swap2))].

Definition idx2 : landmarks xrat := Indices [:: 0; 1].

Definition world2 : world xrat nat :=
  World (Build_NystroemMethod data2 2) (Mat 0 0 [::]) 0 [::].

(** The same two points, with [rank] 0 and with [rank] 3, and an [output]
    that holds a 1 x 1 matrix. *)
Definition world_rank (k : nat) : world xrat nat :=
  World (Build_NystroemMethod data2 k) (Mat 1 1 [:: q 7]) 0 [::].

(** ** Comparing two runs *)

(** Two results are both normal, with related values, or both the same
    exception. *)
Definition same_outcome {A : Type} (Rel : A -> A -> Prop) (r1 r2 : result A)
  : Prop :=
  match r1, r2 with
  | Ok a, Ok b => Rel a b
  | Err e, Err e' => e = e'
  | _, _ => False
  end.

(** ** A decomposition that has not failed *)

(** The dimensions of the factors [arma::svd] returns when it succeeds. *)
Definition svd_full {F : Type} (K : mat F) (usv : mat F * seq F * mat F) : bool :=
  let: (U, s, V) := usv in
  [&& n_rows U == n_rows K, n_cols U == n_rows K,
      size s == minn (n_rows K) (n_cols K),
      n_rows V == n_cols K & n_cols V == n_cols K].

(** The decompositions of [arma3], with fresh memory that holds the
    address instead of NaN. *)
Definition arma3_addr : Arma xrat :=
  {| svd := svd_table [:: (gram3, (perm3, sigma3, perm3))]; junk := q |}.

(** The three points on the axes with [rank] 2, over [xrat] and over the
    rationals; the mini-kernel of the first two points is diag(4, 1). *)
Definition world3_rank2 : world xrat nat :=
  World (Build_NystroemMethod data3 2) (Mat 0 0 [::]) 0 [::].

Definition gram_rank2 {F : Type} (c : nat -> F) : mat F :=
  Mat 2 2 [:: c 4; c 0;  c 0; c 1].

Definition eye2 {F : Type} (c : nat -> F) : mat F :=
  Mat 2 2 [:: c 1; c 0;  c 0; c 1].

Definition arma_rank2_rat : Arma rat :=
  {| svd := svd_table [:: (gram_rank2 rat_of,
                           (eye2 rat_of, [:: rat_of 4; rat_of 1], eye2 rat_of))];
     junk := fun _ => 0%R |}.

Definition world3_rank2_rat : world rat nat :=
  World (Build_NystroemMethod (axes3 rat_of) 2) (Mat 0 0 [::]) 0 [::].

(** * Properties *)

(** ** Loops *)

Section Loops.

Variable T : Type.
Variable body : nat -> T -> result T.

(** A loop that ends normally has run its body normally at every index,
    so an invariant of the body carries from the first state to the
    last. *)
Lemma for_iota_inv (Inv : nat -> T -> Prop) (m n : nat) (s s' : T) :
  for_ (iota m n) body s = Ok s' ->
  Inv m s ->
  (forall k t t', m <= k < m + n -> Inv k t -> body k t = Ok t' -> Inv k.+1 t') ->
  Inv (m + n) s'.
Proof.
elim: n m s => [|n IH] m s /=.
  by case=> <- Hs _; rewrite addn0.
case Hb: (body m s) => [t|e] // Hfor Hs Hstep.
rewrite addnS -addSn; apply: (IH m.+1 t) => //.
  by apply: (Hstep m s) => //; rewrite leqnn /= -addn1 leq_add2l.
move=> k u u' /andP [Hmk Hk]; apply: Hstep.
by rewrite (ltnW Hmk) /= addnS -addSn.
Qed.

(** A loop whose body runs normally wherever the invariant holds ends
    normally. *)
Lemma for_iota_ok (Inv : nat -> T -> Prop) (m n : nat) (s : T) :
  Inv m s ->
  (forall k t, m <= k < m + n -> Inv k t ->
     exists2 t', body k t = Ok t' & Inv k.+1 t') ->
  exists2 s', for_ (iota m n) body s = Ok s' & Inv (m + n) s'.
Proof.
elim: n m s => [|n IH] m s /= Hs Hstep.
  by exists s => //; rewrite addn0.
have [|t -> Ht] := Hstep m s _ Hs.
  by rewrite leqnn /= -addn1 leq_add2l.
rewrite addnS -addSn; apply: IH => // k u /andP [Hmk Hk].
by apply: Hstep; rewrite (ltnW Hmk) /= addnS -addSn.
Qed.

(** The exception of a loop is an exception of its body. *)
Lemma for_err (idx : seq nat) (s : T) (e : exn) :
  for_ idx body s = Err e -> exists k t, body k t = Err e.
Proof.
elim: idx s => [|i idx IH] s //=.
case Hb: (body i s) => [t|e'].
  exact: IH.
by case=> <-; exists i, s.
Qed.

End Loops.

(** ** Matrix accesses *)

Section Access.

Context {F : Type} {SF : Scalar F}.

Lemma offset_inj (r i j i' j' : nat) :
  i < r -> i' < r -> j * r + i = j' * r + i' -> i = i' /\ j = j'.
Proof.
move=> Hi Hi' E; have Hr : 0 < r by exact: leq_ltn_trans Hi.
split.
  by move: (congr1 (modn^~ r) E); rewrite !modnMDl !modn_small.
by move: (congr1 (divn^~ r) E); rewrite !divnMDl // !divn_small // !addn0.
Qed.

Lemma elem_mk_mat (r c : nat) (f : nat -> nat -> F) (i j : nat) :
  i < r -> j < c -> elem (mk_mat r c f) i j = f i j.
Proof.
move=> Hi Hj; have Hr : 0 < r by exact: leq_ltn_trans Hi.
have Hlt : j * r + i < c * r.
  by apply: (@leq_trans (j.+1 * r)); rewrite ?leq_mul2r ?Hj ?orbT // mulSn addnC ltn_add2r.
rewrite /elem /offset /mk_mat /= (nth_map 0) ?size_iota // nth_iota // add0n.
by rewrite modnMDl modn_small // divnMDl // divn_small // addn0.
Qed.

Lemma mat_at_mk_mat (r c : nat) (f : nat -> nat -> F) (i j : nat) :
  mat_at (mk_mat r c f) i j = if (i < r) && (j < c) then Ok (f i j)
                              else Err IndexOutOfBounds.
Proof.
rewrite /mat_at /in_bounds /=; case: ifP => // /andP [Hi Hj].
by rewrite elem_mk_mat.
Qed.

Lemma mat_setP (K K' : mat F) (i j : nat) (v : F) :
  mat_set K i j v = Ok K' ->
  [/\ in_bounds K i j, n_rows K' = n_rows K, n_cols K' = n_cols K,
      elem K' i j = v
    & forall i' j', i' < n_rows K -> (i', j') <> (i, j) ->
        elem K' i' j' = elem K i' j'].
Proof.
rewrite /mat_set; case: ifP => // Hb [<-] {K'}.
split=> //=; first by rewrite /elem /offset /= nth_set_nth /= eqxx.
move=> i' j' Hi' Hne; rewrite /elem /offset /= nth_set_nth /=.
case: eqP => // E; case: Hne.
have /andP [Hi _] := Hb.
by have [-> ->] := offset_inj Hi' Hi E.
Qed.

Lemma mat_set_ok (K : mat F) (i j : nat) (v : F) :
  in_bounds K i j -> exists K', mat_set K i j v = Ok K'.
Proof. by rewrite /mat_set => ->; eexists. Qed.

End Access.

(** ** The loop nests *)

Section Fill.

Context {F : Type} {SF : Scalar F}.

Variables (r c : nat) (entry : nat -> nat -> result F).

Let row (i : nat) (K : mat F) : result (mat F) :=
  for_ (iota 0 c) (fun j K => (v <- entry i j ;; mat_set K i j v)%res) K.

Let row_inv (i : nat) (K : mat F) (k : nat) (t : mat F) : Prop :=
  [/\ n_rows t = n_rows K, n_cols t = n_cols K,
      forall j, j < k ->
        exists2 v, entry i j = Ok v & in_bounds K i j /\ elem t i j = v
    & forall i' j', i' < n_rows K -> i' <> i -> elem t i' j' = elem K i' j'].

Let fill_inv (K : mat F) (k : nat) (t : mat F) : Prop :=
  [/\ n_rows t = n_rows K, n_cols t = n_cols K
    & forall i j, i < k -> j < c ->
        exists2 v, entry i j = Ok v & in_bounds K i j /\ elem t i j = v].

Let same_shape (K : mat F) (k : nat) (t : mat F) : Prop :=
  n_rows t = n_rows K /\ n_cols t = n_cols K.

Lemma fill_row_sound (i : nat) (K K' : mat F) :
  row i K = Ok K' ->
  [/\ n_rows K' = n_rows K, n_cols K' = n_cols K,
      forall j, j < c ->
        exists2 v, entry i j = Ok v & in_bounds K i j /\ elem K' i j = v
    & forall i' j', i' < n_rows K -> i' <> i -> elem K' i' j' = elem K i' j'].
Proof.
move=> Hrow.
suff: row_inv i K (0 + c) K' by [].
apply: (for_iota_inv (Inv := row_inv i K) Hrow) => // k t t' _ [Hr Hc Hdone Hframe] /=.
case He: (entry i k) => [v|e] //= Hset.
have [Hb Hr' Hc' Hv Hother] := mat_setP Hset.
split; rewrite ?Hr' ?Hc' //.
- move=> j; rewrite ltnS leq_eqVlt => /orP [/eqP ->|Hj].
    by exists v => //; split=> //; move: Hb; rewrite /in_bounds Hr Hc.
  have [w Hw [Hbw Hew]] := Hdone j Hj; exists w => //; split=> //.
  have Hne : (i, j) <> (i, k) by case=> E; move: Hj; rewrite E ltnn.
  by rewrite (Hother _ _ _ Hne) //; case/andP: Hb.
- move=> i' j' Hi' Hne.
  have Hne' : (i', j') <> (i, k) by case=> E _; apply: Hne.
  by rewrite (Hother _ _ _ Hne') ?Hr //; apply: Hframe.
Qed.

(** On normal return every cell (i, j) with i < r and j < c has been
    assigned the value of [entry i j], and the dimensions are those of the
    matrix passed in. *)
Lemma fill_sound (K K' : mat F) :
  fill r c entry K = Ok K' ->
  [/\ n_rows K' = n_rows K, n_cols K' = n_cols K
    & forall i j, i < r -> j < c ->
        exists2 v, entry i j = Ok v & mat_at K' i j = Ok v].
Proof.
move=> Hfill.
have [] : fill_inv K (0 + r) K'.
  apply: (for_iota_inv (Inv := fill_inv K) Hfill) => // k t t' _ [Hr Hc Hdone].
  move=> Hrow_k; have [Hr' Hc' Hrow Hframe] := fill_row_sound Hrow_k.
  split; rewrite ?Hr' ?Hc' // => i j; rewrite ltnS leq_eqVlt.
  case/orP => [/eqP -> Hj|Hi Hj].
    have [v Hv [Hb Hev]] := Hrow j Hj; exists v => //; split=> //.
    by move: Hb; rewrite /in_bounds Hr Hc.
  have [v Hv [Hb Hev]] := Hdone i j Hi Hj; exists v => //; split=> //.
  have Hne : i <> k by move=> E; move: Hi; rewrite E ltnn.
  by rewrite (Hframe _ _ _ Hne) // Hr; case/andP: Hb.
rewrite add0n => Hr Hc Hdone; split=> // i j Hi Hj.
have [v Hv [Hb Hev]] := Hdone i j Hi Hj; exists v => //.
by rewrite /mat_at /in_bounds Hr Hc; move: Hb; rewrite /in_bounds => ->; rewrite Hev.
Qed.

(** The loop nest returns normally when every entry it asks for is
    available and the matrix is large enough. *)
Lemma fill_ok (K : mat F) :
  (forall i j, i < r -> j < c -> exists v, entry i j = Ok v) ->
  r <= n_rows K -> c <= n_cols K ->
  exists K', fill r c entry K = Ok K'.
Proof.
move=> Hentry Hr Hc.
have [K' HK' _] : exists2 K', fill r c entry K = Ok K' & same_shape K (0 + r) K';
  last by exists K'.
rewrite /fill; apply: (for_iota_ok (Inv := same_shape K) (m := 0)) => //.
move=> i t /andP [_ Hi] [Hrt Hct].
have [t' Ht' [Hrt' Hct']] :
    exists2 t', row i t = Ok t' & same_shape t (0 + c) t';
  last by exists t' => //; split; rewrite ?Hrt' ?Hct'.
rewrite /row; apply: (for_iota_ok (Inv := same_shape t) (m := 0)) => //.
move=> j u /andP [_ Hj] [Hru Hcu] /=.
have [v ->] := Hentry i j Hi Hj.
have Hb : in_bounds u i j.
  by rewrite /in_bounds Hru Hcu Hrt Hct (leq_trans Hi Hr) (leq_trans Hj Hc).
have [u' Hu'] := mat_set_ok v Hb; exists u' => //.
by have [_ Hr' Hc' _ _] := mat_setP Hu'; split; rewrite ?Hr' ?Hc'.
Qed.

(** If some cell of the range cannot be computed, or lies outside of the
    matrix, the loop nest does not return normally. *)
Lemma fill_err (K : mat F) (i j : nat) (e : exn) :
  i < r -> j < c -> entry i j = Err e -> exists e', fill r c entry K = Err e'.
Proof.
move=> Hi Hj He; case Hf: (fill r c entry K) => [K'|e']; last by exists e'.
have [_ _ H] := fill_sound Hf.
by have [v] := H i j Hi Hj; rewrite He.
Qed.

(** The loop nest raises what [entry] raises, or [IndexOutOfBounds]. *)
Lemma fill_exn (K : mat F) (e : exn) :
  fill r c entry K = Err e ->
  e = IndexOutOfBounds \/ exists i j, entry i j = Err e.
Proof.
rewrite /fill => Hf; have [i [t Hrow]] := for_err Hf.
have [j [u]] := for_err Hrow.
case He: (entry i j) => [v|e'] /=; last by case=> <-; right; exists i, j.
by rewrite /mat_set; case: ifP => // _ [<-]; left.
Qed.

End Fill.

(** ** The kernel blocks *)

Section Blocks.

Context {F Rng : Type} {SF : Scalar F} {AF : Arma F} {KT : KernelType F}.

Lemma for_ext (T : Type) (b1 b2 : nat -> T -> result T) (idx : seq nat) (s : T) :
  (forall i t, b1 i t = b2 i t) -> for_ idx b1 s = for_ idx b2 s.
Proof.
by move=> E; elim: idx s => [|i idx IH] s //=; rewrite E; case: (b2 i s).
Qed.

Lemma fill_ext (r c : nat) (e1 e2 : nat -> nat -> result F) (K : mat F) :
  (forall i j, e1 i j = e2 i j) -> fill r c e1 K = fill r c e2 K.
Proof.
move=> E; rewrite /fill; apply: for_ext => i t; apply: for_ext => j u.
by rewrite E.
Qed.

(** Both overloads are the same two loop nests over the landmarks. *)
Lemma GetKernelMatrixE (obj : NystroemMethod F) (lm : landmarks F)
    (miniKernel semiKernel : mat F) :
  GetKernelMatrix obj lm miniKernel semiKernel =
  (mk <- fill (rank obj) (rank obj) (fun i j =>
       a <- landmark obj lm i ;; b <- landmark obj lm j ;;
       Ok (Evaluate a b)) miniKernel ;;
   sk <- fill (n_cols (data obj)) (rank obj) (fun i j =>
       a <- col (data obj) i ;; b <- landmark obj lm j ;;
       Ok (Evaluate a b)) semiKernel ;;
   Ok (mk, sk))%res.
Proof.
case: lm => [sp|sd] //=; rewrite /GetKernelMatrix_indices.
have E1 K : fill (rank obj) (rank obj) (fun i j =>
       si <- idx_at sp i ;; a <- col (data obj) si ;;
       sj <- idx_at sp j ;; b <- col (data obj) sj ;;
       Ok (Evaluate a b))%res K =
    fill (rank obj) (rank obj) (fun i j =>
       a <- (si <- idx_at sp i ;; col (data obj) si) ;;
       b <- (sj <- idx_at sp j ;; col (data obj) sj) ;;
       Ok (Evaluate a b))%res K.
  apply: fill_ext => i j; case: (idx_at sp i) => //= si.
  by case: (col (data obj) si) => //= a; case: (idx_at sp j).
have E2 K : fill (n_cols (data obj)) (rank obj) (fun i j =>
       a <- col (data obj) i ;;
       sj <- idx_at sp j ;; b <- col (data obj) sj ;;
       Ok (Evaluate a b))%res K =
    fill (n_cols (data obj)) (rank obj) (fun i j =>
       a <- col (data obj) i ;;
       b <- (sj <- idx_at sp j ;; col (data obj) sj) ;;
       Ok (Evaluate a b))%res K.
  apply: fill_ext => i j; case: (col (data obj) i) => //= a.
  by case: (idx_at sp j).
by rewrite E1 E2.
Qed.

(** On normal return the dimensions of the two blocks are those they had
    on entry, every cell (i, j) of the mini-kernel with i, j < rank holds
    the kernel of landmarks i and j, and every cell (i, j) of the
    semi-kernel with i < n, j < rank holds the kernel of point i and
    landmark j. *)
Lemma GetKernelMatrix_sound (obj : NystroemMethod F) (lm : landmarks F)
    (miniKernel semiKernel mk sk : mat F) :
  GetKernelMatrix obj lm miniKernel semiKernel = Ok (mk, sk) ->
  [/\ (n_rows mk = n_rows miniKernel /\ n_cols mk = n_cols miniKernel),
      (n_rows sk = n_rows semiKernel /\ n_cols sk = n_cols semiKernel),
      forall i j, i < rank obj -> j < rank obj ->
        exists a b, [/\ landmark obj lm i = Ok a, landmark obj lm j = Ok b
                      & mat_at mk i j = Ok (Evaluate a b)]
    & forall i j, i < n_cols (data obj) -> j < rank obj ->
        exists x b, [/\ col (data obj) i = Ok x, landmark obj lm j = Ok b
                      & mat_at sk i j = Ok (Evaluate x b)]].
Proof.
rewrite GetKernelMatrixE.
case H1: (fill _ _ _ miniKernel) => [mk'|] //=.
case H2: (fill _ _ _ semiKernel) => [sk'|] //= [Emk Esk].
move: H1 H2; rewrite {mk'}Emk {sk'}Esk => H1 H2.
have [Hr1 Hc1 Hmk] := fill_sound H1; have [Hr2 Hc2 Hsk] := fill_sound H2.
split=> // i j Hi Hj.
- have [v] := Hmk i j Hi Hj.
  case: (landmark obj lm i) => [a|] //=; case: (landmark obj lm j) => [b|] //=.
  by case=> <- Hv; exists a, b.
- have [v] := Hsk i j Hi Hj.
  case: (col (data obj) i) => [x|] //=; case: (landmark obj lm j) => [b|] //=.
  by case=> <- Hv; exists x, b.
Qed.

(** The only exception the construction of the blocks raises is
    Armadillo's bounds error. *)
Lemma GetKernelMatrix_exn (obj : NystroemMethod F) (lm : landmarks F)
    (miniKernel semiKernel : mat F) (e : exn) :
  GetKernelMatrix obj lm miniKernel semiKernel = Err e -> e = IndexOutOfBounds.
Proof.
have Hcol (A : mat F) k e' : col A k = Err e' -> e' = IndexOutOfBounds.
  by rewrite /col; case: ifP => // _ [].
have Hlm k e' : landmark obj lm k = Err e' -> e' = IndexOutOfBounds.
  case: lm => [sp|sd] /=; last exact: Hcol.
  rewrite /idx_at; case: ifP => [_ /=|_ [] //]; exact: Hcol.
rewrite GetKernelMatrixE.
case H1: (fill _ _ _ miniKernel) => [mk'|e1] /=.
  case H2: (fill _ _ _ semiKernel) => [sk'|e2] //= [<-].
  have [//|[i [j]]] := fill_exn H2.
  case Ha: (col (data obj) i) => [a|e'] /=; last by case=> <-; apply: Hcol Ha.
  by case Hb: (landmark obj lm j) => [b|e'] //= [<-]; apply: Hlm Hb.
case=> <-; have [//|[i [j]]] := fill_exn H1.
case Ha: (landmark obj lm i) => [a|e'] /=; last by case=> <-; apply: Hlm Ha.
by case Hb: (landmark obj lm j) => [b|e'] //= [<-]; apply: Hlm Hb.
Qed.

(** The blocks are built when the first [rank] landmarks can be read and
    the two matrices are large enough. *)
Lemma GetKernelMatrix_ok (obj : NystroemMethod F) (lm : landmarks F)
    (miniKernel semiKernel : mat F) :
  (forall j, j < rank obj -> exists b, landmark obj lm j = Ok b) ->
  rank obj <= n_rows miniKernel -> rank obj <= n_cols miniKernel ->
  n_cols (data obj) <= n_rows semiKernel -> rank obj <= n_cols semiKernel ->
  exists mk sk, GetKernelMatrix obj lm miniKernel semiKernel = Ok (mk, sk).
Proof.
move=> Hlm Hr1 Hc1 Hr2 Hc2; rewrite GetKernelMatrixE.
have [|mk ->] /= := fill_ok (entry := fun i j =>
    (a <- landmark obj lm i ;; b <- landmark obj lm j ;;
     Ok (Evaluate a b))%res) _ Hr1 Hc1.
  move=> i j Hi Hj; have [a ->] := Hlm i Hi; have [b ->] := Hlm j Hj.
  by eexists.
have [|sk ->] /= := fill_ok (entry := fun i j =>
    (a <- col (data obj) i ;; b <- landmark obj lm j ;;
     Ok (Evaluate a b))%res) _ Hr2 Hc2.
  move=> i j Hi Hj; rewrite /col Hi /=; have [b ->] := Hlm j Hj.
  by eexists.
by exists mk, sk.
Qed.

(** If one of the first [rank] landmarks cannot be read, no block is
    returned: the bounds error is raised. *)
Lemma GetKernelMatrix_err (obj : NystroemMethod F) (lm : landmarks F)
    (miniKernel semiKernel : mat F) (j : nat) (e : exn) :
  j < rank obj -> landmark obj lm j = Err e ->
  GetKernelMatrix obj lm miniKernel semiKernel = Err IndexOutOfBounds.
Proof.
move=> Hj He.
case H: (GetKernelMatrix obj lm miniKernel semiKernel) => [[mk sk]|e'].
  have [_ _ Hmk _] := GetKernelMatrix_sound H.
  by have [a [b []]] := Hmk j j Hj Hj; rewrite He.
by rewrite (GetKernelMatrix_exn H).
Qed.

End Blocks.

(** ** Products *)

Section Products.

Context {F : Type} {SF : Scalar F}.

Lemma mat_mulP (A B C : mat F) :
  mat_mul A B = Ok C ->
  [/\ n_cols A = n_rows B, n_rows C = n_rows A, n_cols C = n_cols B
    & forall i j, i < n_rows A -> j < n_cols B ->
        elem C i j = dot (n_cols A) (elem A i) (fun k => elem B k j)].
Proof.
rewrite /mat_mul; case: eqP => // E [<-]; split=> // i j Hi Hj.
by rewrite elem_mk_mat.
Qed.

Lemma mat_mul_exn (A B : mat F) (e : exn) :
  mat_mul A B = Err e -> e = IncompatibleDimensions.
Proof. by rewrite /mat_mul; case: ifP => // _ [<-]. Qed.

Lemma diagmatP (v : seq F) :
  [/\ n_rows (diagmat v) = size v, n_cols (diagmat v) = size v
    & forall i j, i < size v -> j < size v ->
        elem (diagmat v) i j = if i == j then nth fzero v i else fzero].
Proof. by split=> // i j Hi Hj; rewrite elem_mk_mat. Qed.

Lemma nth_inv_sqrt (s : seq F) (i : nat) :
  i < size s ->
  nth fzero (inv_sqrt s) i = fdiv fone (fsqrt (nth fzero s i)).
Proof. by move=> Hi; rewrite (nth_map fzero). Qed.

Lemma size_inv_sqrt (s : seq F) : size (inv_sqrt s) = size s.
Proof. by rewrite size_map. Qed.

End Products.

(** ** [Apply], case by case *)

Section ApplyCases.

Context {F Rng : Type} {SF : Scalar F} {AF : Arma F} {KT : KernelType F}
        {PS : PointSelectionPolicy F Rng}.

Lemma ApplyE (w : world F Rng) :
  Apply w =
  let obj := this w in
  let: (r, g) := Select (data obj) (rank obj) (rng w) in
  match r with
  | Err e => (Err e, World obj (output w) g (cout w))
  | Ok lm =>
      match GetKernelMatrix obj lm (miniKernel0 obj) (semiKernel0 obj) with
      | Err e => (Err e, World obj (output w) g (cout w))
      | Ok (mk, sk) =>
          let: (U, s, V) := svd mk in
          let log := cout w ++ log_before_product mk sk in
          match assemble sk U (diagmat (inv_sqrt s)) V with
          | Err e => (Err e, World obj (output w) g log)
          | Ok out => (Ok tt, World obj out g (log ++ log_output out))
          end
      end
  end.
Proof.
rewrite /Apply /bind /get_this /call_Select /lift /print /set_output /=.
rewrite /miniKernel0 /semiKernel0.
case: (Select _ _ _) => [[lm|e] g] //=.
case: (GetKernelMatrix _ _ _ _) => [[mk sk]|e] //=.
rewrite /log_before_product; case: (svd mk) => [[U s] V] /=.
by case: (assemble _ _ _ _) => [out|e] //=; rewrite -!catA.
Qed.

End ApplyCases.

(** ** The claims on the blocks *)

Section BlockClaims.

Context {F : Type} {SF : Scalar F} {AF : Arma F} {KT : KernelType F}.

Lemma landmark_set_ok (obj : NystroemMethod F) (lm : landmarks F) (j : nat) :
  landmark_set obj lm -> j < rank obj -> exists b, landmark obj lm j = Ok b.
Proof.
case: lm => [sp|sd] /=.
  case/andP=> /eqP Hsz /allP Hall Hj; rewrite /idx_at Hsz Hj /= /col.
  by rewrite Hall ?mem_nth ?Hsz //; eexists.
by move/eqP=> Hsz Hj; rewrite /col Hsz Hj; eexists.
Qed.

(** C5.  [GetKernelMatrix], either overload, called as [Apply] calls it
    (a rank x rank and an n x rank matrix to fill) with a set of [rank]
    landmarks over a dataset of n points, returns normally; on return the
    two matrices have kept their dimensions, cell (i, j) of the mini-kernel
    is [Evaluate] of landmarks i and j for all i, j < rank, and cell (i, j)
    of the semi-kernel is [Evaluate] of point i and landmark j for all
    i < n, j < rank.  No cell keeps what the memory held before. *)
Theorem GetKernelMatrix_entries (obj : NystroemMethod F) (lm : landmarks F)
    (miniKernel semiKernel : mat F) :
  landmark_set obj lm ->
  n_rows miniKernel = rank obj -> n_cols miniKernel = rank obj ->
  n_rows semiKernel = n_cols (data obj) -> n_cols semiKernel = rank obj ->
  exists mk sk,
    [/\ GetKernelMatrix obj lm miniKernel semiKernel = Ok (mk, sk),
        (n_rows mk = rank obj /\ n_cols mk = rank obj),
        (n_rows sk = n_cols (data obj) /\ n_cols sk = rank obj),
        forall i j, i < rank obj -> j < rank obj ->
          exists a b, [/\ landmark obj lm i = Ok a, landmark obj lm j = Ok b
                        & mat_at mk i j = Ok (Evaluate a b)]
      & forall i j, i < n_cols (data obj) -> j < rank obj ->
          exists x b, [/\ col (data obj) i = Ok x, landmark obj lm j = Ok b
                        & mat_at sk i j = Ok (Evaluate x b)]].
Proof.
move=> Hlm Hr1 Hc1 Hr2 Hc2.
have [|||||mk [sk H]] := @GetKernelMatrix_ok _ _ _ obj lm miniKernel semiKernel;
  rewrite ?Hr1 ?Hc1 ?Hr2 ?Hc2 //.
  by move=> j Hj; apply: landmark_set_ok.
have [[Hr1' Hc1'] [Hr2' Hc2'] Hmk Hsk] := GetKernelMatrix_sound H.
by exists mk, sk; split=> //; rewrite ?Hr1' ?Hc1' ?Hr2' ?Hc2'.
Qed.

(** C8.  If [Evaluate] is symmetric, the mini-kernel [GetKernelMatrix]
    returns is symmetric: cells (i, j) and (j, i) are equal for all
    i, j < rank. *)
Theorem miniKernel_symmetric (obj : NystroemMethod F) (lm : landmarks F)
    (miniKernel semiKernel mk sk : mat F) :
  (forall a b, Evaluate a b = Evaluate b a) ->
  GetKernelMatrix obj lm miniKernel semiKernel = Ok (mk, sk) ->
  forall i j, i < rank obj -> j < rank obj ->
    exists2 v, mat_at mk i j = Ok v & mat_at mk j i = Ok v.
Proof.
move=> Hsym H i j Hi Hj; have [_ _ Hmk _] := GetKernelMatrix_sound H.
have [a [b [Ha Hb Hij]]] := Hmk i j Hi Hj.
have [b' [a' [Hb' Ha' Hji]]] := Hmk j i Hj Hi.
exists (Evaluate a b) => //.
by move: Ha' Hb'; rewrite Ha Hb Hji => -[<-] [<-]; rewrite Hsym.
Qed.

(** C10.  The index overload checks nothing itself; every access goes
    through the bounds-checked accessors.  Called with at least [rank]
    selected indices and with a rank x rank and an n x rank matrix, it
    returns normally when every selected index is below the number of
    columns of the dataset: no access is out of bounds.  When one of the
    first [rank] selected indices is not below it, the column access is out
    of bounds and the bounds error is raised. *)
Theorem GetKernelMatrix_indices_bounds (obj : NystroemMethod F)
    (selectedPoints : seq nat) (miniKernel semiKernel : mat F) :
  rank obj <= size selectedPoints ->
  n_rows miniKernel = rank obj -> n_cols miniKernel = rank obj ->
  n_rows semiKernel = n_cols (data obj) -> n_cols semiKernel = rank obj ->
  (all (fun p => p < n_cols (data obj)) selectedPoints ->
   exists mk sk,
     GetKernelMatrix_indices obj selectedPoints miniKernel semiKernel
     = Ok (mk, sk))
  /\ (forall j, j < rank obj -> n_cols (data obj) <= nth 0 selectedPoints j ->
      GetKernelMatrix_indices obj selectedPoints miniKernel semiKernel
      = Err IndexOutOfBounds).
Proof.
move=> Hsz Hr1 Hc1 Hr2 Hc2; split.
  move=> /allP Hall.
  apply: (@GetKernelMatrix_ok _ _ _ obj (Indices selectedPoints));
    rewrite ?Hr1 ?Hc1 ?Hr2 ?Hc2 // => j Hj.
  have Hj' : j < size selectedPoints by exact: leq_trans Hj Hsz.
  by rewrite /= /idx_at Hj' /= /col Hall ?mem_nth //; eexists.
move=> j Hj Hge.
apply: (@GetKernelMatrix_err _ _ _ obj (Indices selectedPoints) _ _ j
          IndexOutOfBounds) => //.
by rewrite /= /idx_at (leq_trans Hj Hsz) /= /col ltnNge Hge.
Qed.

End BlockClaims.

(** ** The claims on [Apply] *)

Section ApplyClaims.

Context {F Rng : Type} {SF : Scalar F} {AF : Arma F} {KT : KernelType F}
        {PS : PointSelectionPolicy F Rng}.

Implicit Types (w : world F Rng) (obj : NystroemMethod F).

(** What [Apply] hands to [Select]. *)
Let selected w : result (landmarks F) * Rng :=
  Select (data (this w)) (rank (this w)) (rng w).

Lemma dot_ext (n : nat) (f f' g g' : nat -> F) :
  (forall k, k < n -> f k = f' k) -> (forall k, k < n -> g k = g' k) ->
  dot n f g = dot n f' g'.
Proof.
move=> Hf Hg; rewrite /dot.
have: forall k, k \in iota 0 n -> k < n by move=> k; rewrite mem_iota.
elim: (iota 0 n) => //= k l IH H.
rewrite Hf ?Hg ?IH ?H ?mem_head // => k' Hk'.
by apply: H; rewrite in_cons Hk' orbT.
Qed.

(** The product, entry by entry: the last operand is read at (m, j). *)
Lemma assemble_elem (S U N V out : mat F) :
  assemble S U N V = Ok out ->
  [/\ [/\ n_cols S = n_rows U, n_cols U = n_rows N & n_cols N = n_rows V],
      n_rows out = n_rows S, n_cols out = n_cols V
    & forall i j, i < n_rows S -> j < n_cols V ->
        elem out i j =
        dot (n_cols N)
          (fun m => dot (n_cols U)
             (fun l => dot (n_cols S) (elem S i) (fun k => elem U k l))
             (fun l => elem N l m))
          (fun m => elem V m j)].
Proof.
rewrite /assemble.
case H1: (mat_mul S U) => [SU|] //=; case H2: (mat_mul SU N) => [SUN|] //= H3.
have [E1 R1 C1 Hsu] := mat_mulP H1; have [E2 R2 C2 Hsun] := mat_mulP H2.
have [E3 R3 C3 Hout] := mat_mulP H3.
split; rewrite ?R3 ?R2 ?R1 //; first by split; rewrite -?E3 -?E2 ?C2 ?C1.
move=> i j Hi Hj.
rewrite Hout ?R2 ?R1 // C2; apply: dot_ext => // m Hm.
rewrite Hsun ?R1 // C1; apply: dot_ext => // l Hl.
by rewrite Hsu.
Qed.

Lemma assemble_exn (S U N V : mat F) (e : exn) :
  assemble S U N V = Err e -> e = IncompatibleDimensions.
Proof.
rewrite /assemble.
case H1: (mat_mul S U) => [SU|e1] /=; last by case=> <-; apply: mat_mul_exn H1.
case H2: (mat_mul SU N) => [SUN|e2] /=; last by case=> <-; apply: mat_mul_exn H2.
exact: mat_mul_exn.
Qed.

(** The call that goes through. *)
Lemma Apply_ok w lm mk sk U s V G :
  (selected w).1 = Ok lm ->
  GetKernelMatrix (this w) lm (miniKernel0 (this w)) (semiKernel0 (this w))
  = Ok (mk, sk) ->
  svd mk = (U, s, V) ->
  assemble sk U (diagmat (inv_sqrt s)) V = Ok G ->
  Apply w = (Ok tt, World (this w) G (selected w).2
                      ((cout w ++ log_before_product mk sk) ++ log_output G)).
Proof.
rewrite ApplyE /selected /=.
by case: (Select _ _ _) => [r g] /= -> -> -> ->.
Qed.

(** A call that raises has not written [output]. *)
Lemma Apply_err_output w e :
  (Apply w).1 = Err e -> output (Apply w).2 = output w.
Proof.
rewrite ApplyE /=; case: (Select _ _ _) => [[lm|e'] g] //=.
case: (GetKernelMatrix _ _ _ _) => [[mk sk]|e'] //=.
case: (svd mk) => [[U s] V] /=.
by case: (assemble _ _ _ _).
Qed.


(** C7.  With a selection policy whose [Select] does not depend on the
    state of the random number generator, as the Ordered policy, [Apply]
    is a function of the configuration: two calls on the same dataset,
    kernel and rank end the same way, and when they return their output
    matrices are identical, whatever the [output] argument, the generator
    and [std::cout] held before each. *)
Theorem Apply_deterministic w1 w2 :
  (forall d k g g', (Select d k g).1 = (Select d k g').1) ->
  this w1 = this w2 ->
  (Apply w1).1 = (Apply w2).1
  /\ ((Apply w1).1 = Ok tt -> output (Apply w1).2 = output (Apply w2).2).
Proof.
move=> Hdet Hthis; rewrite !ApplyE -Hthis /=.
move: (Hdet (data (this w1)) (rank (this w1)) (rng w1) (rng w2)).
case: (Select _ _ (rng w1)) => [r1 g1]; case: (Select _ _ (rng w2)) => [r2 g2] /=.
move=> <- {r2}; case: r1 => [lm|e] //=.
case: (GetKernelMatrix _ _ _ _) => [[mk sk]|e] //=.
case: (svd mk) => [[U s] V] /=.
by case: (assemble _ _ _ _) => [out|e].
Qed.

(** C4.  [arma::svd] returning factors of the dimensions it promises (or
    empty ones when it fails), a call of [Apply] with 1 <= rank <= n that
    returns normally has written an output of exactly n rows and [rank]
    columns. *)
Theorem Apply_output_shape w w' :
  (forall K, svd_dims K (svd K)) ->
  1 <= rank (this w) <= n_cols (data (this w)) ->
  Apply w = (Ok tt, w') ->
  n_rows (output w') = n_cols (data (this w))
  /\ n_cols (output w') = rank (this w).
Proof.
move=> Hsvd /andP [Hrank _]; rewrite ApplyE /=.
case: (Select _ _ _) => [[lm|e] g] //=.
case Hk: (GetKernelMatrix _ _ _ _) => [[mk sk]|e] //=.
have [[Hr1 Hc1] [Hr2 Hc2] _ _] := GetKernelMatrix_sound Hk.
move: (Hsvd mk); case: (svd mk) => [[U s] V] /=.
case Ha: (assemble _ _ _ _) => [out|e] //= Hdims [<-] /=.
have [[E1 _ _] Hro Hco _] := assemble_elem Ha.
rewrite Hro Hco Hr2 /=; split=> //.
case/orP: Hdims => /and5P [/eqP HrU _ _ _ /eqP HcV].
  by rewrite HcV Hc1.
by move: Hrank; rewrite -[rank _]Hc2 E1 HrU.
Qed.

(** C1, as the code has it.  A call of [Apply] that returns normally has
    selected landmarks, built the two blocks, taken [U], [s], [V] from
    [arma::svd] on the mini-kernel, and written to [output] the product
    [semiKernel * U * N * V], where N is the diagonal matrix of the
    [1 / sqrt(s_l)]: entry (i, j) of the output sums over m the entries
    (i, m) of [semiKernel * U * N] times the entries (m, j) of [V]; [V]
    itself, not its transpose. *)
Theorem Apply_output_multiplies_V w w' :
  Apply w = (Ok tt, w') ->
  exists lm mk sk U s V,
    let N := diagmat (inv_sqrt s) in
    [/\ [/\ (selected w).1 = Ok lm,
            GetKernelMatrix (this w) lm (miniKernel0 (this w))
              (semiKernel0 (this w)) = Ok (mk, sk)
          & svd mk = (U, s, V)],
        assemble sk U N V = Ok (output w'),
        forall l m, l < size s -> m < size s ->
          elem N l m = if l == m then fdiv fone (fsqrt (nth fzero s l))
                       else fzero
      & forall i j, i < n_rows sk -> j < n_cols V ->
          elem (output w') i j =
          dot (size s)
            (fun m => dot (n_cols U)
               (fun l => dot (n_cols sk) (elem sk i) (fun k => elem U k l))
               (fun l => elem N l m))
            (fun m => elem V m j)].
Proof.
rewrite ApplyE /selected /=.
case: (Select _ _ _) => [[lm|e] g] //=.
case Hk: (GetKernelMatrix _ _ _ _) => [[mk sk]|e] //=.
case Hs: (svd mk) => [[U s] V] /=.
case Ha: (assemble _ _ _ _) => [out|e] //= [<-] /=.
exists lm, mk, sk, U, s, V; split=> //.
  move=> l m Hl Hm; have [_ _ ->] := diagmatP (inv_sqrt s);
    rewrite ?size_inv_sqrt //.
  by rewrite nth_inv_sqrt.
have [_ _ _ Hout] := assemble_elem Ha.
by move=> i j Hi Hj; rewrite Hout //; have [_ -> _] := diagmatP (inv_sqrt s);
   rewrite size_inv_sqrt.
Qed.

(** C3, as the code has it.  In a call of [Apply] that reaches the
    reconstruction, the normalization is [diagmat(1.0 / sqrt(s))] over all
    the singular values [arma::svd] returned: it has as many rows and
    columns as there are singular values, and its diagonal entry i is
    [1 / sqrt(s_i)] for every i, whatever [s_i] is.  This is the matrix
    printed and multiplied; the call ends as the product does, and
    [Apply] raises no [NumericalDegeneracy]. *)
Theorem Apply_inverts_every_singular_value w lm mk sk U s V :
  (selected w).1 = Ok lm ->
  GetKernelMatrix (this w) lm (miniKernel0 (this w)) (semiKernel0 (this w))
  = Ok (mk, sk) ->
  svd mk = (U, s, V) ->
  let N := diagmat (inv_sqrt s) in
  [/\ n_rows N = size s /\ n_cols N = size s,
      forall i, i < size s ->
        mat_at N i i = Ok (fdiv fone (fsqrt (nth fzero s i))),
      (Apply w).1 = (out <- assemble sk U N V ;; Ok tt)%res,
      cout (Apply w).2
      = cout w ++ log_kernels sk mk ++ log_svd U s V ++ log_normalization N
        ++ (if assemble sk U N V is Ok out then log_output out else [::])
    & (Apply w).1 <> Err NumericalDegeneracy].
Proof.
rewrite ApplyE /selected /=.
case: (Select _ _ _) => [r g] /= -> -> /=; rewrite /log_before_product => -> /=.
have [Hr Hc HN] := diagmatP (inv_sqrt s).
rewrite !size_inv_sqrt in Hr Hc HN.
split=> //.
- move=> i Hi; rewrite /mat_at /in_bounds Hr Hc Hi /= HN // eqxx.
  by rewrite nth_inv_sqrt.
- by case: (assemble _ _ _ _).
- by case: (assemble _ _ _ _) => [out|e] /=; rewrite -?catA ?cats0.
- case Ha: (assemble _ _ _ _) => [out|e] //= [E].
  by move: (assemble_exn Ha); rewrite E.
Qed.

Lemma for_skip (T : Type) (idx : seq nat) (s : T) :
  for_ idx (fun _ t => Ok t) s = Ok s.
Proof. by elim: idx. Qed.

(** C2, as the code has it.  [Apply] validates neither [rank] nor the
    dataset.  It raises [InvalidArgument] exactly when [Select] does, as
    it passes on whatever [Select] raises; on every exception [output] is
    left as it was.  If [Select] returns with [rank] 0, and the
    decomposition of the empty matrix is empty, the call returns normally
    and writes an n x 0 output.  If [Select] returns indices of which one
    of the first [rank] is missing or is not below n, the call raises
    Armadillo's bounds error. *)
Theorem Apply_rank_not_validated w :
  [/\ (Apply w).1 = Err InvalidArgument <-> (selected w).1 = Err InvalidArgument,
      forall e, (selected w).1 = Err e -> (Apply w).1 = Err e,
      forall e, (Apply w).1 = Err e -> output (Apply w).2 = output w,
      rank (this w) = 0 ->
        (exists lm, (selected w).1 = Ok lm) ->
        svd (Mat 0 0 [::]) = (Mat 0 0 [::], [::], Mat 0 0 [::]) ->
        (Apply w).1 = Ok tt
        /\ output (Apply w).2 = Mat (n_cols (data (this w))) 0 [::]
    & forall selectedPoints j,
        (selected w).1 = Ok (Indices selectedPoints) -> j < rank (this w) ->
        (size selectedPoints <= j)
        || (n_cols (data (this w)) <= nth 0 selectedPoints j) ->
        (Apply w).1 = Err IndexOutOfBounds].
Proof.
have Hout := @Apply_err_output w.
move: Hout; rewrite ApplyE /selected /=.
case: (Select _ _ _) => [[lm|e] g] /= Hout; last first.
  split=> //.
  - by split=> -[->].
  - by move=> e0 [->].
  - by move=> _ [lm].
split.
- split=> //; case Hk: (GetKernelMatrix _ _ _ _) => [[mk sk]|e] /=.
    case: (svd mk) => [[U s] V] /=.
    case Ha: (assemble _ _ _ _) => [out|e] //= [E].
    by move: (assemble_exn Ha); rewrite E.
  by case=> E; move: (GetKernelMatrix_exn Hk); rewrite E.
- by [].
- exact: Hout.
- move=> H0 _ Hsvd; rewrite GetKernelMatrixE /miniKernel0 /semiKernel0 H0.
  by rewrite /fill /= for_skip /= /new_mat /= Hsvd.
- move=> sp j [->] Hj Hbad.
  rewrite (@GetKernelMatrix_err _ _ _ _ _ _ _ j IndexOutOfBounds) //=.
  rewrite /idx_at; case: ltnP Hbad => //= _ Hge.
  by rewrite /col ltnNge Hge.
Qed.

End ApplyClaims.

(** ** All the points as landmarks *)

Section AllPoints.

Context {F : Type} {SF : Scalar F} {AF : Arma F} {KT : KernelType F}.

Lemma offset_lt (r c i j : nat) : i < r -> j < c -> j * r + i < c * r.
Proof.
move=> Hi Hj; apply: (@leq_trans (j.+1 * r)); last by rewrite leq_mul2r Hj orbT.
by rewrite mulSn addnC ltn_add2r.
Qed.

(** Writing inside a matrix whose memory has the size of its dimensions
    keeps that size. *)
Lemma fill_size (r c : nat) (entry : nat -> nat -> result F) (K K' : mat F) :
  size (mem K) = n_cols K * n_rows K ->
  fill r c entry K = Ok K' -> size (mem K') = size (mem K).
Proof.
move=> Hwf Hfill.
pose Inv := fun (_ : nat) (t : mat F) =>
  [/\ n_rows t = n_rows K, n_cols t = n_cols K & size (mem t) = size (mem K)].
have Hstep i k (t t' : mat F) : Inv k t ->
    (v <- entry i k ;; mat_set t i k v)%res = Ok t' -> Inv k.+1 t'.
  case=> Hr Hc Hs; case: (entry i k) => [v|] //=.
  rewrite /mat_set; case: ifP => // /andP [Hi Hk] [<-] /=; split=> //.
  rewrite size_set_nth /offset -Hs; apply/maxn_idPr.
  by rewrite Hs Hwf -Hr -Hc offset_lt.
suff [] : Inv (0 + r) K' by [].
apply: (for_iota_inv (Inv := Inv) Hfill) => // i t t' _ Ht Hrow.
suff : Inv (0 + c) t' by [].
apply: (for_iota_inv (Inv := Inv) Hrow) => // k u u' _ Hu; exact: Hstep.
Qed.

(** A matrix is determined by its dimensions and its entries. *)
Lemma mat_eq_mk_mat (r c : nat) (g : nat -> nat -> F) (K : mat F) :
  n_rows K = r -> n_cols K = c -> size (mem K) = c * r ->
  (forall i j, i < r -> j < c -> elem K i j = g i j) ->
  K = mk_mat r c g.
Proof.
case: K => r' c' m /= -> -> Hsz H; rewrite /mk_mat; congr Mat.
apply: (@eq_from_nth _ fzero); first by rewrite size_map size_iota.
move=> k; rewrite Hsz => Hk.
have Hr : 0 < r by case: (r) Hk => //; rewrite muln0.
rewrite (nth_map 0) ?size_iota // nth_iota // add0n.
rewrite -H ?ltn_pmod ?ltn_divLR // /elem /offset /=.
by rewrite -divn_eq.
Qed.

Lemma landmark_iota (obj : NystroemMethod F) (n j : nat) :
  j < n -> landmark obj (Indices (iota 0 n)) j = col (data obj) j.
Proof. by move=> Hj; rewrite /= /idx_at size_iota Hj /= nth_iota. Qed.

Lemma col_point (obj : NystroemMethod F) (i : nat) (a : seq F) :
  col (data obj) i = Ok a -> point obj i = a.
Proof. by rewrite /point => ->. Qed.

(** With [rank] = n and the landmarks 0, ..., n - 1, the mini-kernel and
    the semi-kernel are both the full kernel matrix. *)
Lemma GetKernelMatrix_all_points (obj : NystroemMethod F) :
  rank obj = n_cols (data obj) ->
  GetKernelMatrix obj (Indices (iota 0 (n_cols (data obj))))
    (miniKernel0 obj) (semiKernel0 obj)
  = Ok (kernel_matrix obj, kernel_matrix obj).
Proof.
move=> Hrank; set lm := Indices _; set n := n_cols (data obj).
have Hlm j : j < n -> landmark obj lm j = Ok (point obj j).
  move=> Hj; rewrite landmark_iota // /point /col.
  by rewrite -/n Hj.
have Hwf1 : size (mem (miniKernel0 obj)) = n * n.
  by rewrite /= size_mkseq Hrank.
have Hwf2 : size (mem (semiKernel0 obj)) = n * n.
  by rewrite /= size_mkseq Hrank.
case H: (GetKernelMatrix obj lm _ _) => [[mk sk]|e]; last first.
  have [mk [sk Hok]] : exists mk sk,
      GetKernelMatrix obj lm (miniKernel0 obj) (semiKernel0 obj) = Ok (mk, sk).
    apply: GetKernelMatrix_ok; try by rewrite /= ?Hrank.
    by move=> j; rewrite Hrank => Hj; rewrite Hlm //; eexists.
  by rewrite H in Hok.
have [[Hr1 Hc1] [Hr2 Hc2] Hmk Hsk] := GetKernelMatrix_sound H.
move: (H); rewrite GetKernelMatrixE.
case H1: (fill _ _ _ (miniKernel0 obj)) => [mk'|] //=.
case H2: (fill _ _ _ (semiKernel0 obj)) => [sk'|] //= [Emk Esk].
have Hs1 := fill_size _ H1; have Hs2 := fill_size _ H2.
rewrite Emk Hwf1 /= Hrank in Hs1; rewrite Esk Hwf2 /= Hrank in Hs2.
have Emat (A : mat F) i j v : mat_at A i j = Ok v -> elem A i j = v.
  by rewrite /mat_at; case: ifP => // _ [].
congr (Ok (_, _)); apply: mat_eq_mk_mat; rewrite ?Hr1 ?Hc1 ?Hr2 ?Hc2 /= ?Hrank //.
- by apply: Hs1.
- move=> i j Hi Hj; have Hj' : j < rank obj by rewrite Hrank.
  have Hi' : i < rank obj by rewrite Hrank.
  have [a [b [Ha Hb Hv]]] := Hmk i j Hi' Hj'.
  rewrite (Emat _ _ _ _ Hv); move: Ha Hb; rewrite !Hlm //.
  by move=> [<-] [<-].
- by apply: Hs2.
- move=> i j Hi Hj; have Hj' : j < rank obj by rewrite Hrank.
  have [a [b [Ha Hb Hv]]] := Hsk i j Hi Hj'.
  rewrite (Emat _ _ _ _ Hv) (col_point Ha); move: Hb; rewrite Hlm //.
  by move=> [<-].
Qed.

End AllPoints.

(** ** Exactness at full rank *)

Section Exact.

Import Order.Theory GRing.Theory Num.Theory.
Local Open Scope ring_scope.

Variable R : realFieldType.
Variable sqrtR : R -> R.

Let SR : Scalar R := field_scalar sqrtR.
Local Existing Instance SR.

Lemma dotE (n : nat) (f g : nat -> R) :
  dot n f g = \sum_(k < n) f k * g k.
Proof.
rewrite -(big_mkord xpredT (fun k => f k * g k)) /index_iota subn0 /dot /=.
by elim: (iota 0 n) => [|k l IH]; rewrite ?big_nil ?big_cons //= IH.
Qed.

Lemma mx_of_elem (m p : nat) (A : mat R) (i : 'I_m) (j : 'I_p) :
  mx_of m p A i j = elem A i j.
Proof. by rewrite mxE. Qed.

Lemma mx_of_mul (m p r : nat) (A B C : mat R) :
  mat_mul A B = Ok C -> n_rows A = m -> n_cols A = p -> n_cols B = r ->
  mx_of m r C = mx_of m p A *m mx_of p r B.
Proof.
move=> H Hm Hp Hr; have [_ _ _ HC] := mat_mulP H.
apply/matrixP=> i j; rewrite mx_of_elem HC ?Hm ?Hr // Hp dotE mxE.
by apply: eq_bigr => k _; rewrite !mx_of_elem.
Qed.

Lemma mx_of_trans (m p : nat) (A : mat R) :
  n_rows A = m -> n_cols A = p -> mx_of p m (trans A) = (mx_of m p A)^T.
Proof.
move=> Hm Hp; apply/matrixP=> i j.
by rewrite [RHS]mxE !mx_of_elem /trans elem_mk_mat ?Hm ?Hp.
Qed.

Lemma mx_of_diagmat (n : nat) (v : seq R) :
  size v = n -> mx_of n n (diagmat v) = diag_mx (\row_j nth 0 v j).
Proof.
move=> Hn; apply/matrixP=> i j.
have [_ _ HD] := diagmatP v.
rewrite mx_of_elem HD ?Hn // !mxE.
by rewrite -(inj_eq val_inj) /=; case: eqP => // _; rewrite mulr0n.
Qed.

Lemma mx_of_identity (n : nat) : mx_of n n (identity_mat n) = 1%:M.
Proof.
rewrite /identity_mat mx_of_diagmat ?size_nseq //.
rewrite -diag_const_mx; congr diag_mx; apply/rowP=> j.
by rewrite !mxE nth_nseq ltn_ord.
Qed.

Section Algebra.

Variable n : nat.
Implicit Types (K U V P : 'M[R]_n) (s d : 'rV[R]_n).

Let psd_mx K : Prop := forall v : 'rV[R]_n, 0 <= (v *m K *m v^T) 0 0.

Lemma quad_diag s (y : 'rV[R]_n) :
  (y *m diag_mx s *m y^T) 0 0 = \sum_j s 0 j * (y 0 j) ^+ 2.
Proof.
rewrite mul_mx_diag !mxE; apply: eq_bigr => j _.
by rewrite !mxE expr2 -mulrA mulrCA.
Qed.

Lemma psd_root_unique P s :
  psd_mx P -> P *m P = diag_mx s *m diag_mx s -> (forall i, 0 < s 0 i) ->
  P = diag_mx s.
Proof.
move=> Hpsd Hsq Hpos.
have Hcomm : P *m diag_mx s = diag_mx s *m P.
  have := mulmxA P P P; rewrite Hsq mulmx_diag mul_mx_diag mul_diag_mx.
  move/matrixP=> E; rewrite mul_mx_diag mul_diag_mx; apply/matrixP=> i j.
  move: (E i j); rewrite !mxE => Eij.
  have [->|Pij] := eqVneq (P i j) 0; first by rewrite mul0r mulr0.
  suff -> : s 0 j = s 0 i by rewrite mulrC.
  have : s 0 j ^+ 2 == s 0 i ^+ 2.
    by rewrite !expr2 -(inj_eq (mulfI Pij)) Eij mulrC.
  have Hj := ltW (Hpos j); have Hi := ltW (Hpos i).
  by rewrite eqrXn2 // => /eqP.
have Hzero : (P - diag_mx s) *m (P + diag_mx s) = 0.
  by rewrite mulmxBl !mulmxDr Hsq Hcomm [diag_mx s *m diag_mx s + _]addrC subrr.
apply/eqP; rewrite -subr_eq0; apply/eqP/row_matrixP => i.
rewrite row0 rowE; set y := (_ *m _).
have Hy : y *m (P + diag_mx s) = 0 by rewrite /y -mulmxA Hzero mulmx0.
have : (y *m (P + diag_mx s) *m y^T) 0 0 = 0 by rewrite Hy mul0mx mxE.
rewrite mulmxDr mulmxDl mxE quad_diag => /eqP.
have Hge : 0 <= \sum_j s 0 j * y 0 j ^+ 2.
  by apply: sumr_ge0 => j _; rewrite mulr_ge0 ?sqr_ge0 // ltW ?Hpos.
rewrite paddr_eq0 // => /andP [_ /eqP Hsum].
apply/rowP=> j; rewrite [RHS]mxE.
have Hnn k : true -> 0 <= s 0 k * y 0 k ^+ 2.
  by move=> _; rewrite mulr_ge0 ?sqr_ge0 // ltW ?Hpos.
have /eqP := psumr_eq0P Hnn Hsum (i := j) isT.
by rewrite mulf_eq0 sqrf_eq0 gt_eqF ?Hpos //=; move/eqP.
Qed.

Lemma nystroem_exact K U V s d :
  K^T = K -> psd_mx K ->
  U^T *m U = 1%:M -> V^T *m V = 1%:M -> K = U *m diag_mx s *m V^T ->
  (forall i, 0 < s 0 i) -> (forall i, d 0 i * d 0 i * s 0 i = 1) ->
  let G := K *m U *m diag_mx d *m V in
  G *m G^T = K.
Proof.
move=> Ksym Kpsd UtU VtV Ksvd Hpos Hd G.
have UUt : U *m U^T = 1%:M by exact: mulmx1C.
have VVt : V *m V^T = 1%:M by exact: mulmx1C.
have Ksvd' : K = V *m diag_mx s *m U^T.
  by rewrite -{1}Ksym Ksvd !trmx_mul trmxK tr_diag_mx mulmxA.
pose P := U^T *m K *m U.
have P1 : P = diag_mx s *m (V^T *m U).
  by rewrite /P Ksvd !mulmxA UtU mul1mx.
have P2 : P = (U^T *m V) *m diag_mx s.
  by rewrite /P {1}Ksvd' -!mulmxA UtU mulmx1.
have Ppsd : psd_mx P.
  move=> v; have := Kpsd (v *m U^T).
  by rewrite /P trmx_mul trmxK !mulmxA.
have Psq : P *m P = diag_mx s *m diag_mx s.
  have WW : (V^T *m U) *m (U^T *m V) = 1%:M.
    by rewrite mulmxA -[V^T *m U *m U^T]mulmxA UUt mulmx1 VtV.
  by rewrite {1}P1 P2 mulmxA -[diag_mx s *m _ *m _]mulmxA WW mulmx1.
have PE := psd_root_unique Ppsd Psq Hpos.
have W1 : V^T *m U = 1%:M.
  have Hinv : diag_mx (\row_j (s 0 j)^-1) *m diag_mx s = 1%:M.
    rewrite mulmx_diag -diag_const_mx; congr diag_mx; apply/rowP=> j.
    by rewrite !mxE mulVf // gt_eqF.
  by rewrite -[LHS]mul1mx -Hinv -mulmxA -P1 PE Hinv.
have UV : U = V by rewrite -[U]mul1mx -VVt -mulmxA W1 mulmx1.
have GE : G = V *m (diag_mx s *m diag_mx d) *m V.
  by rewrite /G {1}Ksvd -UV -!mulmxA [U^T *m _]mulmxA UtU mul1mx !mulmxA.
rewrite GE !trmx_mul !tr_diag_mx mulmxA -[_ *m V *m V^T]mulmxA VVt mulmx1.
rewrite [RHS]Ksvd UV -!mulmxA; congr (_ *m _).
rewrite !mulmxA; congr (_ *m _).
rewrite !mulmx_diag; congr diag_mx; apply/rowP=> j; rewrite !mxE.
by rewrite -!mulrA [d 0 j * (d 0 j * _)]mulrA Hd mulr1.
Qed.

End Algebra.

(** A diagonal matrix of non-negative entries is positive semidefinite. *)
Lemma psd_diagmat (v : seq R) : all (fun x => 0 <= x) v -> psd (diagmat v).
Proof.
move=> /allP Hv y; rewrite mx_of_diagmat // quad_diag.
apply: sumr_ge0 => j _; rewrite mulr_ge0 ?sqr_ge0 // mxE.
by apply: Hv; rewrite mem_nth.
Qed.

Lemma mx_of_assemble (n : nat) (S U N V G : mat R) :
  assemble S U N V = Ok G ->
  n_rows S = n -> n_cols S = n -> n_cols U = n -> n_cols N = n -> n_cols V = n ->
  mx_of n n G = mx_of n n S *m mx_of n n U *m mx_of n n N *m mx_of n n V.
Proof.
rewrite /assemble.
case H1: (mat_mul S U) => [SU|] //=; case H2: (mat_mul SU N) => [SUN|] //= H3.
move=> HrS HcS HcU HcN HcV.
have [_ R1 C1 _] := mat_mulP H1; have [_ R2 C2 _] := mat_mulP H2.
rewrite (mx_of_mul (m := n) (p := n) H3 _ _ HcV) ?R2 ?R1 ?C2 //.
rewrite (mx_of_mul (m := n) (p := n) H2 _ _ HcN) ?R1 ?C1 //.
by rewrite (mx_of_mul H1 HrS HcS HcU).
Qed.

Lemma assemble_ok (S U N V : mat R) :
  n_cols S = n_rows U -> n_cols U = n_rows N -> n_cols N = n_rows V ->
  exists G, assemble S U N V = Ok G.
Proof.
move=> E1 E2 E3; rewrite /assemble /mat_mul E1 eqxx /= E2 eqxx /= E3 eqxx.
by eexists.
Qed.

Context {Rng : Type} {AF : Arma R} {KT : KernelType R}
        {PS : PointSelectionPolicy R Rng}.

(** C6, in exact arithmetic.  Let [rank] be n and the policy select all
    the n points in order; let the kernel be symmetric and the kernel
    matrix positive semidefinite; let [arma::svd] return an exact
    decomposition of it, with positive singular values on which the
    square root is exact.  Then [Apply] returns normally and the product
    of its output by its transpose is the full kernel matrix. *)
Theorem Apply_full_rank_exact (w : world R Rng) :
  let obj := this w in
  let K := kernel_matrix obj in
  rank obj = n_cols (data obj) ->
  (Select (data obj) (rank obj) (rng w)).1
  = Ok (Indices (iota 0 (n_cols (data obj)))) ->
  (forall a b, Evaluate a b = Evaluate b a) ->
  psd K ->
  (let: (U, s, V) := svd K in svd_factors K U s V && exact_roots sqrtR s) ->
  exists2 w', Apply w = (Ok tt, w')
            & mat_mul (output w') (trans (output w')) = Ok K.
Proof.
move=> obj K Hrank Hsel Hsym Hpsd.
have Hk : GetKernelMatrix obj (Indices (iota 0 (n_cols (data obj))))
            (miniKernel0 obj) (semiKernel0 obj) = Ok (K, K).
  exact: GetKernelMatrix_all_points.
case Hs: (svd K) => [[U s] V] /andP [/and4P [/eqP Hsz /eqP Hprod /eqP HU /eqP HV]].
move=> /allP Hroots.
set n := n_cols (data obj) in Hsz *.
have HrK : n_rows K = n by [].
have HcK : n_cols K = n by [].
move: Hprod; case H1: (mat_mul U (diagmat s)) => [US|] //= H2.
have [E1 R1 C1 _] := mat_mulP H1; have [E2 R2 C2 _] := mat_mulP H2.
have [HrD HcD _] := diagmatP s.
have HcU : n_cols U = n by rewrite E1 HrD.
have HcV : n_cols V = n.
  by have <- : n_rows (trans V) = n_cols V by []; rewrite -E2 C1 HcD.
have HrU : n_rows U = n by rewrite -R1 -R2.
have HrV : n_rows V = n.
  by have <- : n_cols (trans V) = n_rows V by []; rewrite -C2.
pose Kx := mx_of n n K; pose Ux := mx_of n n U; pose Vx := mx_of n n V.
pose sx : 'rV[R]_n := \row_j nth 0 s j.
pose dx : 'rV[R]_n := \row_j nth 0 (inv_sqrt (SF := SR) s) j.
have KE : Kx = Ux *m diag_mx sx *m Vx^T.
  rewrite /Kx (mx_of_mul (m := n) (p := n) (r := n) H2) ?R1 ?C1 ?HcD //.
  by rewrite (mx_of_mul H1 HrU HcU) ?HcD // mx_of_diagmat // mx_of_trans.
have UtU : Ux^T *m Ux = 1%:M.
  by rewrite -(mx_of_trans HrU HcU) -(mx_of_mul HU) // -?mx_of_identity ?HcU.
have VtV : Vx^T *m Vx = 1%:M.
  by rewrite -(mx_of_trans HrV HcV) -(mx_of_mul HV) // -?mx_of_identity ?HcV.
have Ksym : Kx^T = Kx.
  apply/matrixP=> i j; rewrite mxE !mx_of_elem /K /kernel_matrix.
  by rewrite !elem_mk_mat // Hsym.
have Hroot (j : 'I_n) :
    (0 < nth 0 s j) && (sqrtR (nth 0 s j) * sqrtR (nth 0 s j) == nth 0 s j).
  by apply: Hroots; rewrite mem_nth // Hsz.
have Hpos (j : 'I_n) : 0 < sx 0 j by rewrite mxE; case/andP: (Hroot j).
have Hd (j : 'I_n) : dx 0 j * dx 0 j * sx 0 j = 1.
  rewrite !mxE /inv_sqrt (nth_map 0) ?Hsz //=; case/andP: (Hroot j) => Hx /eqP Hrr.
  by rewrite !div1r -invfM Hrr mulVf // gt_eqF.
have [HrN HcN _] := diagmatP (inv_sqrt (SF := SR) s).
rewrite size_inv_sqrt Hsz in HrN HcN.
have [G HG] : exists G, assemble K U (diagmat (inv_sqrt s)) V = Ok G.
  by apply: assemble_ok; rewrite ?HcK ?HrU ?HcU ?HrV ?HrN ?HcN.
have [_ HrG HcG _] := assemble_elem HG.
have GE : mx_of n n G = Kx *m Ux *m diag_mx dx *m Vx.
  by rewrite (mx_of_assemble HG HrK HcK HcU HcN HcV) mx_of_diagmat
             ?size_inv_sqrt.
rewrite (Apply_ok Hsel Hk Hs HG); eexists; first by [].
rewrite /=; case HGG: (mat_mul G (trans G)) => [GG|e]; last first.
  by move: HGG; rewrite /mat_mul /= eqxx.
have [_ HrGG HcGG _] := mat_mulP HGG.
have GGE : mx_of n n GG = Kx.
  rewrite (mx_of_mul HGG _ HcG) ?HcV ?HrG //=.
  rewrite (mx_of_trans (m := n) (p := n)) ?HrG ?HcG // GE.
  exact: (nystroem_exact Ksym Hpsd UtU VtV KE Hpos Hd).
congr Ok; apply: mat_eq_mk_mat; rewrite ?HrGG ?HcGG ?HrG //=.
  by move: HGG; rewrite /mat_mul /= eqxx => -[<-] /=;
     rewrite size_map size_iota HrG HrK.
move=> i j Hi Hj.
have := congr1 (fun A : 'M[R]_n => A (Ordinal Hi) (Ordinal Hj)) GGE.
by rewrite !mx_of_elem /= /K /kernel_matrix elem_mk_mat.
Qed.

End Exact.

(** ** The claims on the examples *)

Section Examples.

Local Existing Instance LinearKernel.
Local Existing Instance FirstIndices.

Lemma svd_table_dims (F : eqType)
    (tbl : seq (mat F * (mat F * seq F * mat F))) (K : mat F) :
  all (fun e => svd_dims e.1 e.2) tbl -> svd_dims K (svd_table tbl K).
Proof.
move=> /allP Hall; rewrite /svd_table.
case Hhas: (has (fun e => e.1 == K) tbl); last first.
  move/negbT: Hhas; rewrite has_find -leqNgt => Hle.
  by rewrite nth_default ?size_map //= orbT.
pose e0 : mat F * (mat F * seq F * mat F) :=
  (K, (Mat 0 0 [::], [::], Mat 0 0 [::])).
have Hi : find (fun e => e.1 == K) tbl < size tbl by rewrite -has_find.
have /eqP HK := nth_find e0 Hhas.
rewrite (nth_map e0) // -[X in svd_dims X]HK.
by apply: Hall; rewrite mem_nth.
Qed.

Lemma xmulC : commutative xmul.
Proof. by case=> [a|||] [b|||] //=; rewrite GRing.mulrC. Qed.

Lemma LinearKernel_sym (F : Type) (SF : Scalar F) (a b : seq F) :
  commutative (fmul (F := F)) ->
  Evaluate (KernelType := LinearKernel) a b = Evaluate b a.
Proof.
move=> HC; rewrite /=; elim: a b => [|x a IH] [|y b] //=.
by rewrite IH HC.
Qed.

(** C1, counterexample.  Three points on the axes, the dot product,
    rank 3: the mini-kernel and the semi-kernel are diag(4, 1, 16), of
    which [perm3], 16, 4, 1, [perm3] is a singular value decomposition.
    [Apply] returns the matrix of columns e2, 4 e3, 2 e1; the factor with
    the transpose of [V] is diag(2, 1, 4). *)
Lemma Apply_output_Vt_counterexample :
  let obj := this world3 in
  let N := diagmat (inv_sqrt sigma3) in
  [/\ [/\ Select (PointSelectionPolicy := FirstIndices) (data obj) (rank obj) 0
          = (Ok idx3, 0),
          GetKernelMatrix obj idx3 (miniKernel0 (AF := arma3) obj)
            (semiKernel0 (AF := arma3) obj) = Ok (gram3, gram3),
          svd (Arma := arma3) gram3 = (perm3, sigma3, perm3)
        & is_svd gram3 perm3 sigma3 perm3],
      (Apply (AF := arma3) world3).1 = Ok tt,
      output (Apply (AF := arma3) world3).2
      = Mat 3 3 [:: q 0; q 1; q 0;  q 0; q 0; q 4;  q 2; q 0; q 0],
      assemble_Vt gram3 perm3 N perm3
      = Ok (Mat 3 3 [:: q 2; q 0; q 0;  q 0; q 1; q 0;  q 0; q 0; q 4])
    & Ok (output (Apply (AF := arma3) world3).2)
      <> assemble_Vt gram3 perm3 N perm3].
Proof. by split; [split | | | |]; vm_compute. Qed.

Lemma Apply_output_multiplies_V_witness :
  exists mk sk U s V,
    assemble sk U (diagmat (inv_sqrt s)) V
    = Ok (output (Apply (AF := arma3) world3).2)
    /\ svd (Arma := arma3) mk = (U, s, V)
    /\ GetKernelMatrix (this world3) idx3 (miniKernel0 (AF := arma3) (this world3))
         (semiKernel0 (AF := arma3) (this world3)) = Ok (mk, sk).
Proof.
have H : Apply (AF := arma3) world3 = (Ok tt, (Apply (AF := arma3) world3).2).
  by vm_compute.
have [lm [mk [sk [U [s [V [[Hsel Hk Hs] Ha _ _]]]]]]] :=
  Apply_output_multiplies_V H.
have Elm : lm = idx3 by move: Hsel; vm_compute; case.
by exists mk, sk, U, s, V; split; [exact: Ha | split; [exact: Hs | rewrite -Elm]].
Defined.

(** C2, counterexample.  Two points; a policy that returns the first
    [rank] indices.  With [rank] 0 the call returns normally and
    overwrites the 1 x 1 [output] with a 2 x 0 matrix.  With [rank] 3, more
    than the 2 points, the call raises the bounds error, not
    [InvalidArgument]. *)
Lemma Apply_rank_zero_counterexample :
  [/\ rank (this (world_rank 0)) = 0,
      (Apply (AF := arma2) (world_rank 0)).1 = Ok tt,
      output (world_rank 0) = Mat 1 1 [:: q 7]
      /\ output (Apply (AF := arma2) (world_rank 0)).2 = Mat 2 0 [::],
      n_cols (data (this (world_rank 3))) < rank (this (world_rank 3))
    & (Apply (AF := arma2) (world_rank 3)).1 = Err IndexOutOfBounds].
Proof. by split; vm_compute. Qed.

Lemma Apply_rank_not_validated_witness :
  ((Apply (AF := arma2) (world_rank 0)).1 = Ok tt
   /\ output (Apply (AF := arma2) (world_rank 0)).2 = Mat 2 0 [::])
  /\ (Apply (AF := arma2) (world_rank 3)).1 = Err IndexOutOfBounds.
Proof.
have [_ _ _ H0 _] := Apply_rank_not_validated (AF := arma2) (world_rank 0).
have [_ _ _ _ H3] := Apply_rank_not_validated (AF := arma2) (world_rank 3).
split.
  apply: H0; [by vm_compute | exists (Indices [::]) | ]; by vm_compute.
by apply: (H3 [:: 0; 1; 2] 2); vm_compute.
Defined.

(** C3, counterexample.  Two points on the line, 0 and 1, the dot product,
    rank 2: the singular values of the mini-kernel are 1 and 0.  The call
    returns normally, with an output of 2 columns: nothing is dropped and
    nothing is signalled.  The normalization entry of the zero singular
    value is [1 / sqrt(0)], positive infinity, and every entry of the
    output is NaN. *)
Lemma Apply_zero_singular_value_counterexample :
  let obj := this world2 in
  let N := diagmat (inv_sqrt sigma2) in
  [/\ [/\ GetKernelMatrix obj idx2 (miniKernel0 (AF := arma2) obj)
            (semiKernel0 (AF := arma2) obj) = Ok (gram2, gram2),
          svd (Arma := arma2) gram2 = (swap2, sigma2, swap2)
        & is_svd gram2 swap2 sigma2 swap2],
      (Apply (AF := arma2) world2).1 = Ok tt,
      n_cols (output (Apply (AF := arma2) world2).2) = 2,
      mat_at N 1 1 = Ok PInf /\ finite PInf = false
    & output (Apply (AF := arma2) world2).2 = Mat 2 2 [:: NaN; NaN; NaN; NaN]].
Proof. by split; [split | | | |]; vm_compute. Qed.

Lemma Apply_inverts_every_singular_value_witness :
  mat_at (diagmat (inv_sqrt sigma2)) 1 1 = Ok (fdiv fone (fsqrt (q 0)))
  /\ (Apply (AF := arma2) world2).1 <> Err NumericalDegeneracy.
Proof.
have Hsel : (Select (PointSelectionPolicy := FirstIndices)
               (data (this world2)) (rank (this world2)) (rng world2)).1
            = Ok idx2 by vm_compute.
have Hk : GetKernelMatrix (this world2) idx2
            (miniKernel0 (AF := arma2) (this world2))
            (semiKernel0 (AF := arma2) (this world2)) = Ok (gram2, gram2).
  by vm_compute.
have Hs : svd (Arma := arma2) gram2 = (swap2, sigma2, swap2) by vm_compute.
have [_ H _ _ Hne] := Apply_inverts_every_singular_value Hsel Hk Hs.
by split; [apply: (H 1) | exact: Hne].
Defined.



(** C6, counterexample.  The same two points, with rank = n = 2 and all
    the points selected in order.  The Gram matrix is symmetric and
    positive semidefinite, with the singular values 1 and 0; every entry
    of the output, and so of the product of the output by its transpose,
    is NaN, where the kernel matrix holds 0 and 1. *)
Lemma Apply_full_rank_singular_counterexample :
  let obj := this world2 in
  let G := output (Apply (AF := arma2) world2).2 in
  [/\ rank obj = n_cols (data obj)
      /\ Select (PointSelectionPolicy := FirstIndices) (data obj) (rank obj) 0
         = (Ok (Indices (iota 0 (n_cols (data obj)))), 0),
      GetKernelMatrix obj idx2 (miniKernel0 (AF := arma2) obj)
        (semiKernel0 (AF := arma2) obj) = Ok (gram2, gram2)
      /\ is_svd gram2 swap2 sigma2 swap2,
      (Apply (AF := arma2) world2).1 = Ok tt,
      mat_mul G (trans G) = Ok (Mat 2 2 [:: NaN; NaN; NaN; NaN])
    & mat_mul G (trans G) <> Ok gram2].
Proof. by split; [split | split | | |]; vm_compute. Qed.

Lemma Apply_output_shape_witness :
  n_rows (output (Apply (AF := arma3) world3).2) = 3
  /\ n_cols (output (Apply (AF := arma3) world3).2) = 3.
Proof.
have Hsvd K : svd_dims K (svd (Arma := arma3) K).
  by apply: svd_table_dims; vm_compute.
have Hrank : 1 <= rank (this world3) <= n_cols (data (this world3)).
  by vm_compute.
have Hok : Apply (AF := arma3) world3 = (Ok tt, (Apply (AF := arma3) world3).2).
  by vm_compute.
exact: (Apply_output_shape Hsvd Hrank Hok).
Defined.

Lemma GetKernelMatrix_entries_witness :
  exists mk sk,
    GetKernelMatrix (this world3) idx3 (miniKernel0 (AF := arma3) (this world3))
      (semiKernel0 (AF := arma3) (this world3)) = Ok (mk, sk)
    /\ (forall i j, i < 3 -> j < 3 ->
          exists a b, [/\ landmark (this world3) idx3 i = Ok a,
                          landmark (this world3) idx3 j = Ok b
                        & mat_at mk i j = Ok (Evaluate a b)]).
Proof.
have Hlm : landmark_set (this world3) idx3 by vm_compute.
have [mk [sk [H _ _ Hmk _]]] :=
  @GetKernelMatrix_entries _ _ _ (this world3) idx3
    (miniKernel0 (AF := arma3) (this world3))
    (semiKernel0 (AF := arma3) (this world3)) Hlm
    (erefl _) (erefl _) (erefl _) (erefl _).
by exists mk, sk; split; [exact: H | exact: Hmk].
Defined.

Lemma miniKernel_symmetric_witness :
  exists2 v, mat_at gram3 0 2 = Ok v & mat_at gram3 2 0 = Ok v.
Proof.
have Hk : GetKernelMatrix (this world3) idx3
            (miniKernel0 (AF := arma3) (this world3))
            (semiKernel0 (AF := arma3) (this world3)) = Ok (gram3, gram3).
  by vm_compute.
exact: (miniKernel_symmetric (fun a b => LinearKernel_sym a b xmulC) Hk
          (i := 0) (j := 2) isT isT).
Defined.

Lemma GetKernelMatrix_indices_bounds_witness :
  (exists mk sk,
     GetKernelMatrix_indices (this world3) [:: 0; 1; 2]
       (miniKernel0 (AF := arma3) (this world3))
       (semiKernel0 (AF := arma3) (this world3)) = Ok (mk, sk))
  /\ GetKernelMatrix_indices (this world3) [:: 0; 1; 5]
       (miniKernel0 (AF := arma3) (this world3))
       (semiKernel0 (AF := arma3) (this world3)) = Err IndexOutOfBounds.
Proof.
have [Hin _] :=
  @GetKernelMatrix_indices_bounds _ _ _ (this world3) [:: 0; 1; 2]
    (miniKernel0 (AF := arma3) (this world3))
    (semiKernel0 (AF := arma3) (this world3))
    isT (erefl _) (erefl _) (erefl _) (erefl _).
have [_ Hout] :=
  @GetKernelMatrix_indices_bounds _ _ _ (this world3) [:: 0; 1; 5]
    (miniKernel0 (AF := arma3) (this world3))
    (semiKernel0 (AF := arma3) (this world3))
    isT (erefl _) (erefl _) (erefl _) (erefl _).
by split; [apply: Hin | apply: (Hout 2)].
Defined.

Lemma Apply_deterministic_witness :
  (Apply (AF := arma3) world3).1
  = (Apply (AF := arma3) (Apply (AF := arma3) world3).2).1
  /\ ((Apply (AF := arma3) world3).1 = Ok tt ->
      output (Apply (AF := arma3) world3).2
      = output (Apply (AF := arma3) (Apply (AF := arma3) world3).2).2).
Proof.
have Hdet (d : mat xrat) (k g g' : nat) :
    (Select (PointSelectionPolicy := FirstIndices) d k g).1
    = (Select (PointSelectionPolicy := FirstIndices) d k g').1 by [].
have Hthis : this world3 = this (Apply (AF := arma3) world3).2 by vm_compute.
exact: (Apply_deterministic Hdet Hthis).
Defined.

Lemma Apply_full_rank_exact_witness :
  exists2 w', Apply (SF := rat_scalar) (AF := arma3_rat) (KT := rat_kernel)
                world3_rat = (Ok tt, w')
            & mat_mul (SF := rat_scalar) (output w')
                (trans (SF := rat_scalar) (output w'))
              = Ok (kernel_matrix (SF := rat_scalar) (KT := rat_kernel)
                      (this world3_rat)).
Proof.
pose K := kernel_matrix (SF := rat_scalar) (KT := rat_kernel) (this world3_rat).
have Hsym (a b : seq rat) :
    Evaluate (KernelType := rat_kernel) a b
    = Evaluate (KernelType := rat_kernel) b a.
  have HC : commutative (fmul (Scalar := rat_scalar)) by exact: GRing.mulrC.
  exact: (LinearKernel_sym a b HC).
have Hpsd : psd K.
  have -> : K = diagmat (SF := rat_scalar) [:: rat_of 4; rat_of 1; rat_of 16].
    by vm_compute.
  by apply: psd_diagmat; vm_compute.
have Hsvd : let: (U, s, V) := svd (Arma := arma3_rat) K in
            svd_factors (SF := rat_scalar) K U s V && exact_roots sqrt_rat s.
  by vm_compute.
exact: (@Apply_full_rank_exact _ sqrt_rat nat arma3_rat rat_kernel
          FirstIndices world3_rat (erefl _) (erefl _) Hsym Hpsd Hsvd).
Defined.

End Examples.

(** * Further properties of the code *)

(** ** The blocks *)

Section FurtherBlocks.

Context {F : Type} {SF : Scalar F} {KT : KernelType F}.

(** In the index overload, row [selectedPoints(i)] of the semi-kernel and
    row i of the mini-kernel are computed from the same two columns. *)
Lemma semi_row_of_landmark (obj : NystroemMethod F) (sp : seq nat)
    (miniKernel semiKernel mk sk : mat F) (i j : nat) :
  GetKernelMatrix_indices obj sp miniKernel semiKernel = Ok (mk, sk) ->
  i < rank obj -> j < rank obj ->
  exists a b,
    [/\ nth 0 sp i < n_cols (data obj),
        col (data obj) (nth 0 sp i) = Ok a /\ col (data obj) (nth 0 sp j) = Ok b,
        mat_at mk i j = Ok (Evaluate a b)
      & mat_at sk (nth 0 sp i) j = Ok (Evaluate a b)].
Proof.
move=> H Hi Hj.
have [_ _ Hmk Hsk] := @GetKernelMatrix_sound _ _ _ obj (Indices sp) _ _ _ _ H.
have [a [b [Ha Hb Hv]]] := Hmk i j Hi Hj.
have Hidx k x : landmark obj (Indices sp) k = Ok x ->
    col (data obj) (nth 0 sp k) = Ok x.
  by rewrite /= /idx_at; case: ifP.
have Ha' := Hidx _ _ Ha; have Hb' := Hidx _ _ Hb.
have Hlt : nth 0 sp i < n_cols (data obj).
  by move: Ha'; rewrite /col; case: ifP.
have [x [b' [Hx Hb'' Hv']]] := Hsk _ j Hlt Hj.
exists a, b; split=> //.
by move: Hx Hb'' Hv'; rewrite Ha' Hb => -[<-] [<-].
Qed.

(** X3.  In the index overload the mini-kernel is the block of the
    semi-kernel on the selected rows: cell (i, j) of the mini-kernel and
    cell (selectedPoints(i), j) of the semi-kernel hold the same value,
    for all i, j < rank. *)
Theorem miniKernel_is_block_of_semiKernel (obj : NystroemMethod F)
    (sp : seq nat) (miniKernel semiKernel mk sk : mat F) (i j : nat) :
  GetKernelMatrix_indices obj sp miniKernel semiKernel = Ok (mk, sk) ->
  i < rank obj -> j < rank obj ->
  exists2 v, mat_at mk i j = Ok v & mat_at sk (nth 0 sp i) j = Ok v.
Proof.
move=> H Hi Hj; have [a [b [_ _ Hm Hs]]] := semi_row_of_landmark H Hi Hj.
by exists (Evaluate a b).
Qed.

(** X1.  The points overload, called with a rank x rank and an n x rank
    matrix, returns normally when the matrix of selected points has at
    least [rank] columns, and raises the bounds error when it has fewer:
    column [n_cols selectedData] is then asked for. *)
Theorem GetKernelMatrix_points_bounds (obj : NystroemMethod F)
    (selectedData miniKernel semiKernel : mat F) :
  n_rows miniKernel = rank obj -> n_cols miniKernel = rank obj ->
  n_rows semiKernel = n_cols (data obj) -> n_cols semiKernel = rank obj ->
  (rank obj <= n_cols selectedData ->
   exists mk sk,
     GetKernelMatrix_points obj selectedData miniKernel semiKernel
     = Ok (mk, sk))
  /\ (n_cols selectedData < rank obj ->
      GetKernelMatrix_points obj selectedData miniKernel semiKernel
      = Err IndexOutOfBounds).
Proof.
move=> Hr1 Hc1 Hr2 Hc2; split=> Hn.
  apply: (@GetKernelMatrix_ok _ _ _ obj (Points selectedData));
    rewrite ?Hr1 ?Hc1 ?Hr2 ?Hc2 // => j Hj.
  by rewrite /= /col (leq_trans Hj Hn); eexists.
apply: (@GetKernelMatrix_err _ _ _ obj (Points selectedData) _ _
          (n_cols selectedData) IndexOutOfBounds) => //.
by rewrite /= /col ltnn.
Qed.

(** Two runs of a loop from related states stay related, and end the same
    way. *)
Lemma for_sim (T : Type) (Rel : T -> T -> Prop) (body : nat -> T -> result T)
    (idx : seq nat) (s1 s2 : T) :
  (forall i t1 t2, Rel t1 t2 -> same_outcome Rel (body i t1) (body i t2)) ->
  Rel s1 s2 ->
  same_outcome Rel (for_ idx body s1) (for_ idx body s2).
Proof.
move=> Hbody; elim: idx s1 s2 => [|i idx IH] s1 s2 Hs //=.
move: (Hbody i s1 s2 Hs).
by case: (body i s1) => [a|e]; case: (body i s2) => [b|e'] //; apply: IH.
Qed.

(** What a loop nest over a whole matrix returns does not depend on what
    the matrix held. *)
Lemma fill_whole (r c : nat) (entry : nat -> nat -> result F) (K1 K2 : mat F) :
  n_rows K1 = r -> n_cols K1 = c -> size (mem K1) = c * r ->
  n_rows K2 = r -> n_cols K2 = c -> size (mem K2) = c * r ->
  fill r c entry K1 = fill r c entry K2.
Proof.
move=> Hr1 Hc1 Hs1 Hr2 Hc2 Hs2.
pose Rel := fun t1 t2 : mat F =>
  n_rows t1 = n_rows t2 /\ n_cols t1 = n_cols t2.
have Hsim : same_outcome Rel (fill r c entry K1) (fill r c entry K2).
  apply: for_sim; last by rewrite /Rel Hr1 Hc1 Hr2 Hc2.
  move=> i t1 t2 Ht; apply: for_sim => // j u1 u2 [Hru Hcu].
  case: (entry i j) => [v|e] //=.
  by rewrite /mat_set /in_bounds Hru Hcu; case: ifP.
move: Hsim; case H1: (fill r c entry K1) => [K1'|e1];
  case H2: (fill r c entry K2) => [K2'|e2] //=; last by move=> ->.
move=> _; congr Ok.
pose g (i j : nat) : F := if entry i j is Ok v then v else fzero (Scalar := SF).
have Hg (K K' : mat F) : n_rows K = r -> n_cols K = c ->
    size (mem K) = c * r -> fill r c entry K = Ok K' -> K' = mk_mat r c g.
  move=> Hr Hc Hs Hf; have [Hr' Hc' He] := fill_sound Hf.
  apply: mat_eq_mk_mat; rewrite ?Hr' ?Hc' //.
    by rewrite (fill_size _ Hf) ?Hs // Hr Hc.
  move=> i j Hi Hj; have [v Hv] := He i j Hi Hj.
  by rewrite /mat_at /g Hv; case: ifP => // _ [].
by rewrite (Hg _ _ Hr1 Hc1 Hs1 H1) (Hg _ _ Hr2 Hc2 Hs2 H2).
Qed.

End FurtherBlocks.

(** ** [Apply] *)

Section FurtherApply.

Context {F Rng : Type} {SF : Scalar F} {KT : KernelType F}
        {PS : PointSelectionPolicy F Rng}.

Implicit Types (w : world F Rng).

Let selected w : result (landmarks F) * Rng :=
  Select (data (this w)) (rank (this w)) (rng w).

Lemma size_new_mat (AF : Arma F) (r c : nat) :
  [/\ n_rows (new_mat r c) = r, n_cols (new_mat r c) = c
    & size (mem (new_mat r c)) = c * r].
Proof. by split=> //; rewrite /= size_mkseq. Qed.

(** The blocks do not depend on what the fresh memory held. *)
Lemma GetKernelMatrix_fresh (AF1 AF2 : Arma F) (obj : NystroemMethod F)
    (lm : landmarks F) :
  GetKernelMatrix obj lm (miniKernel0 (AF := AF1) obj) (semiKernel0 (AF := AF1) obj)
  = GetKernelMatrix obj lm (miniKernel0 (AF := AF2) obj)
      (semiKernel0 (AF := AF2) obj).
Proof.
rewrite !GetKernelMatrixE /miniKernel0 /semiKernel0.
have [Hr1 Hc1 Hs1] := size_new_mat AF1 (rank obj) (rank obj).
have [Hr2 Hc2 Hs2] := size_new_mat AF2 (rank obj) (rank obj).
have [Hr3 Hc3 Hs3] := size_new_mat AF1 (n_cols (data obj)) (rank obj).
have [Hr4 Hc4 Hs4] := size_new_mat AF2 (n_cols (data obj)) (rank obj).
rewrite (fill_whole _ Hr1 Hc1 Hs1 Hr2 Hc2 Hs2).
by rewrite (fill_whole _ Hr3 Hc3 Hs3 Hr4 Hc4 Hs4).
Qed.

(** X4.  No uninitialised value reaches a result: with the same
    [arma::svd], whatever the freshly allocated blocks held, [Apply] ends
    the same way, with the same output, generator state and printed
    lines. *)
Theorem Apply_ignores_fresh_memory (AF1 AF2 : Arma F) w :
  (forall K, svd (Arma := AF1) K = svd (Arma := AF2) K) ->
  Apply (AF := AF1) w = Apply (AF := AF2) w.
Proof.
move=> Hsvd; rewrite !ApplyE /=.
case: (Select _ _ _) => [[lm|e] g] //=.
rewrite (GetKernelMatrix_fresh AF1 AF2).
case: (GetKernelMatrix _ _ _ _) => [[mk sk]|e] //=.
by rewrite /log_before_product Hsvd.
Qed.

Context {AF : Arma F}.

(** X2.  Once [Select] has returned, which it is called to do after the
    two blocks are allocated, an exception that leaves [Apply] has one of
    two sources: the construction of the blocks, which raises Armadillo's
    bounds error, or the product, which raises Armadillo's error on the
    dimensions of its operands.  [Apply] raises nothing of its own. *)
Theorem Apply_exceptions w lm e :
  (selected w).1 = Ok lm ->
  (Apply w).1 = Err e ->
  (e = IndexOutOfBounds
   /\ GetKernelMatrix (this w) lm (miniKernel0 (this w)) (semiKernel0 (this w))
      = Err IndexOutOfBounds)
  \/ (e = IncompatibleDimensions
      /\ exists mk sk U s V,
           [/\ GetKernelMatrix (this w) lm (miniKernel0 (this w))
                 (semiKernel0 (this w)) = Ok (mk, sk),
               svd mk = (U, s, V)
             & assemble sk U (diagmat (inv_sqrt s)) V
               = Err IncompatibleDimensions]).
Proof.
rewrite ApplyE /selected /=.
case: (Select _ _ _) => [[lm'|e'] g] //= [->].
case Hk: (GetKernelMatrix _ _ _ _) => [[mk sk]|e'] /=; last first.
  by case=> <-; left; rewrite (GetKernelMatrix_exn Hk).
case Hs: (svd mk) => [[U s] V] /=.
case Ha: (assemble _ _ _ _) => [out|e'] //= [<-].
right; rewrite (assemble_exn Ha); split=> //.
by exists mk, sk, U, s, V; split=> //; rewrite Ha (assemble_exn Ha).
Qed.

(** X9.  When [Select] raises, or when the construction of the blocks
    raises, the call has printed nothing and written nothing: only the
    generator is as [Select] left it. *)
Theorem Apply_early_failure w e :
  (selected w).1 = Err e
  \/ (exists2 lm, (selected w).1 = Ok lm
               & GetKernelMatrix (this w) lm (miniKernel0 (this w))
                   (semiKernel0 (this w)) = Err e) ->
  Apply w = (Err e, World (this w) (output w) (selected w).2 (cout w)).
Proof.
rewrite ApplyE /selected /=.
case: (Select _ _ _) => [r g] /= [->|[lm -> ->]] //.
Qed.

(** X5.  The result of [arma::svd] is not tested.  When the decomposition
    fails, leaving [U] empty, and [rank] is not 0, the product raises the
    error on dimensions: [output] is not written, and the blocks, the
    empty factors and the normalization have been printed. *)
Theorem Apply_svd_failure w lm mk sk U s V :
  (selected w).1 = Ok lm ->
  GetKernelMatrix (this w) lm (miniKernel0 (this w)) (semiKernel0 (this w))
  = Ok (mk, sk) ->
  svd mk = (U, s, V) -> n_rows U = 0 -> 0 < rank (this w) ->
  Apply w = (Err IncompatibleDimensions,
             World (this w) (output w) (selected w).2
               (cout w ++ log_before_product mk sk)).
Proof.
rewrite ApplyE /selected /=.
case: (Select _ _ _) => [r g] /= -> Hk; rewrite Hk => -> HU Hrank.
have [_ [_ Hc] _ _] := GetKernelMatrix_sound Hk.
rewrite /assemble /mat_mul Hc HU /=.
by rewrite (gtn_eqF Hrank).
Qed.

(** The product is defined when the dimensions chain. *)
Lemma assemble_defined (S U N V : mat F) :
  n_cols S = n_rows U -> n_cols U = n_rows N -> n_cols N = n_rows V ->
  exists G, assemble S U N V = Ok G.
Proof.
move=> E1 E2 E3; rewrite /assemble /mat_mul E1 eqxx /= E2 eqxx /= E3 eqxx.
by eexists.
Qed.

(** X6.  [Apply] returns on a valid call: when [Select] returns a set of
    [rank] landmarks over the dataset and [arma::svd] decomposes the
    mini-kernel (its factors have the dimensions of a decomposition), the
    call returns normally and the output has n rows and [rank] columns. *)
Theorem Apply_returns w lm :
  (selected w).1 = Ok lm -> landmark_set (this w) lm ->
  (forall mk sk,
     GetKernelMatrix (this w) lm (miniKernel0 (this w)) (semiKernel0 (this w))
     = Ok (mk, sk) -> svd_full mk (svd mk)) ->
  exists2 w', Apply w = (Ok tt, w')
            & n_rows (output w') = n_cols (data (this w))
              /\ n_cols (output w') = rank (this w).
Proof.
move=> Hsel Hlm Hsvd.
have [mk [sk Hk]] : exists mk sk,
    GetKernelMatrix (this w) lm (miniKernel0 (this w)) (semiKernel0 (this w))
    = Ok (mk, sk).
  by apply: GetKernelMatrix_ok => // j Hj; apply: landmark_set_ok.
have [[Hr1 Hc1] [Hr2 Hc2] _ _] := GetKernelMatrix_sound Hk.
move: (Hsvd _ _ Hk); case Hs: (svd mk) => [[U s] V].
case/and5P=> /eqP HrU /eqP HcU /eqP Hsz /eqP HrV /eqP HcV.
have [HrN HcN _] := diagmatP (inv_sqrt s).
rewrite size_inv_sqrt Hsz Hr1 Hc1 /= minnn in HrN HcN.
have [G HG] : exists G, assemble sk U (diagmat (inv_sqrt s)) V = Ok G.
  by apply: assemble_defined; rewrite ?Hc2 ?HrU ?HcU ?HrN ?HcN ?HrV ?Hr1 ?Hc1.
have [_ HrG HcG _] := assemble_elem HG.
rewrite (Apply_ok Hsel Hk Hs HG); eexists; first by [].
by rewrite /= HrG HcG Hr2 HcV Hc1.
Qed.

(** X10.  Pairwise distinct indices cannot all lie below n when there are
    more than n of them: when [Select] returns [rank] distinct indices
    and [rank] exceeds the number of points, [Apply] raises the bounds
    error and [output] is not written. *)
Theorem Apply_rank_above_n w sp :
  (selected w).1 = Ok (Indices sp) -> uniq sp -> size sp = rank (this w) ->
  n_cols (data (this w)) < rank (this w) ->
  Apply w = (Err IndexOutOfBounds,
             World (this w) (output w) (selected w).2 (cout w)).
Proof.
move=> Hsel Hu Hsz Hn.
have Hhas : has (fun p => n_cols (data (this w)) <= p) sp.
  apply/negPn; rewrite -all_predC; apply/negP => /allP Hall.
  have Hsub : {subset sp <= iota 0 (n_cols (data (this w)))}.
    by move=> p /Hall /=; rewrite -ltnNge mem_iota.
  by move: (uniq_leq_size Hu Hsub); rewrite size_iota Hsz leqNgt Hn.
pose j := find (fun p => n_cols (data (this w)) <= p) sp.
have Hj : j < rank (this w) by rewrite -Hsz -has_find.
have Hbad : landmark (this w) (Indices sp) j = Err IndexOutOfBounds.
  rewrite /= /idx_at Hsz Hj /= /col ltnNge.
  by rewrite (nth_find 0 Hhas).
move: Hsel; rewrite ApplyE /selected /=.
case: (Select _ _ _) => [r g] /= ->.
by rewrite (GetKernelMatrix_err _ _ Hj Hbad).
Qed.

End FurtherApply.

(** ** Exact arithmetic *)

Section FurtherExact.

Import Order.Theory GRing.Theory Num.Theory.
Local Open Scope ring_scope.

Variable R : realFieldType.
Variable sqrtR : R -> R.

Let SR : Scalar R := field_scalar sqrtR.
Local Existing Instance SR.

(** The product of a matrix by its transpose. *)
Lemma gram_of (m p : nat) (G : mat R) :
  n_rows G = m -> n_cols G = p ->
  exists GG,
    [/\ mat_mul G (trans G) = Ok GG, n_rows GG = m /\ n_cols GG = m,
        size (mem GG) = (m * m)%N
      & mx_of m m GG = mx_of m p G *m (mx_of m p G)^T].
Proof.
move=> Hm Hp.
have [GG HGG] : exists GG, mat_mul G (trans G) = Ok GG.
  by rewrite /mat_mul /= eqxx; eexists.
have [_ Hr Hc _] := mat_mulP HGG; exists GG; split=> //.
- by rewrite Hr Hc /= Hm.
- by move: HGG; rewrite /mat_mul /= eqxx => -[<-] /=;
     rewrite size_map size_iota Hm.
- have Ht := @mx_of_trans _ sqrtR m p G Hm Hp.
  have Hm' : n_cols (trans G) = m by [].
  by rewrite (@mx_of_mul _ sqrtR m p m _ _ _ HGG Hm Hp Hm') Ht.
Qed.

Lemma mx_of_assemble_rect (m r : nat) (S U N V G : mat R) :
  assemble S U N V = Ok G ->
  n_rows S = m -> n_cols S = r -> n_cols U = r -> n_cols N = r -> n_cols V = r ->
  mx_of m r G = mx_of m r S *m mx_of r r U *m mx_of r r N *m mx_of r r V.
Proof.
rewrite /assemble.
case H1: (mat_mul S U) => [SU|] //=; case H2: (mat_mul SU N) => [SUN|] //= H3.
move=> HrS HcS HcU HcN HcV.
have [_ R1 C1 _] := mat_mulP H1; have [_ R2 C2 _] := mat_mulP H2.
rewrite (@mx_of_mul _ sqrtR m r r _ _ _ H3) ?R2 ?R1 ?C2 //.
rewrite (@mx_of_mul _ sqrtR m r r _ _ _ H2) ?R1 ?C1 //.
by rewrite (@mx_of_mul _ sqrtR m r r _ _ _ H1).
Qed.

(** X7.  In exact arithmetic, when the columns of a square [V] are
    orthonormal, the product of the factor by its transpose is the same
    whether the factor is assembled with [V], as the code does, or with
    the transpose of [V]. *)
Theorem gram_ignores_transpose (S U N V G G' : mat R) :
  assemble S U N V = Ok G -> assemble_Vt S U N V = Ok G' ->
  mat_mul (trans V) V = Ok (identity_mat (n_cols V)) ->
  n_rows V = n_cols V ->
  mat_mul G (trans G) = mat_mul G' (trans G').
Proof.
rewrite /assemble_Vt /assemble.
case H1: (mat_mul S U) => [SU|] //=; case H2: (mat_mul SU N) => [SUN|] //=.
move=> H3 H3' HV Hsq.
set m := n_rows SUN; set p := n_cols V.
have [E3 R3 C3 _] := mat_mulP H3; have [E3' R3' C3' _] := mat_mulP H3'.
have HcA : n_cols SUN = p by rewrite E3 Hsq.
pose A := mx_of m p SUN; pose Vx := mx_of p p V.
have VtV : Vx^T *m Vx = 1%:M.
  have Hp' : n_rows (trans V) = p by [].
  have Hp'' : n_cols (trans V) = p by [].
  rewrite -(@mx_of_trans _ sqrtR p p V Hsq (erefl _)).
  rewrite -(@mx_of_mul _ sqrtR p p p _ _ _ HV Hp' Hp'' (erefl _)).
  exact: mx_of_identity.
have VVt : Vx *m Vx^T = 1%:M by exact: mulmx1C.
have GE : mx_of m p G = A *m Vx.
  by rewrite (@mx_of_mul _ sqrtR m p p _ _ _ H3 (erefl _) HcA (erefl _)).
have GE' : mx_of m p G' = A *m Vx^T.
  have Ht := @mx_of_trans _ sqrtR p p V Hsq (erefl _).
  have Hp' : n_cols (trans V) = p by [].
  by rewrite (@mx_of_mul _ sqrtR m p p _ _ _ H3' (erefl _) HcA Hp') Ht.
have [GG [-> [HrGG HcGG] HsGG GGE]] := @gram_of m p G R3 C3.
have HcG' : n_cols G' = p by rewrite C3' /=.
have [GG' [-> [HrGG' HcGG'] HsGG' GGE']] := @gram_of m p G' R3' HcG'.
congr Ok.
have E : mx_of m m GG = mx_of m m GG'.
  rewrite GGE GGE' GE GE' !trmx_mul trmxK !mulmxA.
  by rewrite -[A *m Vx *m Vx^T]mulmxA VVt -[A *m Vx^T *m Vx]mulmxA VtV.
have EG' : GG' = mk_mat m m (elem GG') by exact: mat_eq_mk_mat.
rewrite [RHS]EG'; apply: mat_eq_mk_mat => // i j Hi Hj.
have := congr1 (fun X : 'M[R]_m => X (Ordinal Hi) (Ordinal Hj)) E.
by rewrite !(@mx_of_elem _ sqrtR).
Qed.

(** What the check [svd_factors] says of the matrices. *)
Lemma svd_factors_mx (r : nat) (K U V : mat R) (s : seq R) :
  svd_factors K U s V -> n_rows K = r -> n_cols K = r ->
  [/\ [/\ n_rows U = r, n_cols U = r, n_rows V = r, n_cols V = r & size s = r],
      mx_of r r K
      = mx_of r r U *m diag_mx (\row_j nth 0 s j) *m (mx_of r r V)^T,
      (mx_of r r U)^T *m mx_of r r U = 1%:M
    & (mx_of r r V)^T *m mx_of r r V = 1%:M].
Proof.
case/and4P=> /eqP Hsz /eqP Hprod /eqP HU /eqP HV HrK HcK.
rewrite HcK in Hsz.
move: Hprod; case H1: (mat_mul U (diagmat s)) => [US|] //= H2.
have [E1 R1 C1 _] := mat_mulP H1; have [E2 R2 C2 _] := mat_mulP H2.
have [HrD HcD _] := diagmatP s.
have HcU : n_cols U = r by rewrite E1 HrD.
have HcV : n_cols V = r.
  by have <- : n_rows (trans V) = n_cols V by []; rewrite -E2 C1 HcD.
have HrU : n_rows U = r by rewrite -R1 -R2.
have HrV : n_rows V = r.
  by have <- : n_cols (trans V) = n_rows V by []; rewrite -C2.
split=> //.
- rewrite (@mx_of_mul _ sqrtR r r r _ _ _ H2) ?R1 ?C1 ?HcD //.
  rewrite (@mx_of_mul _ sqrtR r r r _ _ _ H1) ?HcD //.
  by rewrite (@mx_of_diagmat _ sqrtR) // (@mx_of_trans _ sqrtR r r).
- rewrite -(@mx_of_trans _ sqrtR r r) // -(@mx_of_mul _ sqrtR r r r _ _ _ HU) //.
  by rewrite HcU; exact: mx_of_identity.
- rewrite -(@mx_of_trans _ sqrtR r r) // -(@mx_of_mul _ sqrtR r r r _ _ _ HV) //.
  by rewrite HcV; exact: mx_of_identity.
Qed.

Context {Rng : Type} {AF : Arma R} {KT : KernelType R}
        {PS : PointSelectionPolicy R Rng}.

(** X8.  The approximation is exact on the landmarks.  In exact
    arithmetic, with index landmarks, a symmetric kernel, a positive
    semidefinite mini-kernel and an exact decomposition of it with
    positive singular values, [Apply] returns normally, and the entry of
    [output * output.t()] at two selected points is the kernel of these
    two points, whatever [rank] is. *)
Theorem Apply_exact_on_landmarks (w : world R Rng) (sp : seq nat)
    (mk sk U : mat R) (s : seq R) (V : mat R) :
  (Select (data (this w)) (rank (this w)) (rng w)).1 = Ok (Indices sp) ->
  GetKernelMatrix (this w) (Indices sp) (miniKernel0 (this w))
    (semiKernel0 (this w)) = Ok (mk, sk) ->
  svd mk = (U, s, V) ->
  (forall a b, Evaluate a b = Evaluate b a) ->
  psd mk -> svd_factors mk U s V -> exact_roots sqrtR s ->
  exists2 w', Apply w = (Ok tt, w')
    & exists2 GG, mat_mul (output w') (trans (output w')) = Ok GG
        & forall a b, (a < rank (this w))%N -> (b < rank (this w))%N ->
            elem GG (nth 0%N sp a) (nth 0%N sp b)
            = Evaluate (point (this w) (nth 0%N sp a))
                       (point (this w) (nth 0%N sp b)).
Proof.
move=> Hsel Hk Hs Hsym Hpsd Hfac /allP Hroots.
set obj := this w in Hsel Hk *; set r := rank obj; set n := n_cols (data obj).
have [[HrK HcK] [HrS HcS] Hmk _] := GetKernelMatrix_sound Hk.
rewrite /= -/r in HrK HcK; rewrite /= -/r -/n in HrS HcS.
have [[HrU HcU HrV HcV Hsz] KE UtU VtV] := svd_factors_mx Hfac HrK HcK.
pose Kx := mx_of r r mk; pose Ux := mx_of r r U; pose Vx := mx_of r r V.
pose sx : 'rV[R]_r := \row_j nth 0 s j.
pose dx : 'rV[R]_r := \row_j nth 0 (inv_sqrt (SF := SR) s) j.
have Hentry a b (Ha : (a < r)%N) (Hb : (b < r)%N) :
    [/\ (nth 0%N sp a < n)%N,
        elem mk a b = Evaluate (point obj (nth 0%N sp a))
                               (point obj (nth 0%N sp b))
      & elem sk (nth 0%N sp a) b = elem mk a b].
  have [x [y [Hlt [Hx Hy] Hm Hsk]]] := semi_row_of_landmark Hk Ha Hb.
  have Hel (A : mat R) i j v : mat_at A i j = Ok v -> elem A i j = v.
    by rewrite /mat_at; case: ifP => // _ [].
  by rewrite (Hel _ _ _ _ Hm) (Hel _ _ _ _ Hsk) (col_point Hx) (col_point Hy).
have Ksym : Kx^T = Kx.
  apply/matrixP=> i j; rewrite mxE !(@mx_of_elem _ sqrtR).
  have [_ -> _] := Hentry j i (ltn_ord j) (ltn_ord i).
  by have [_ -> _] := Hentry i j (ltn_ord i) (ltn_ord j); rewrite Hsym.
have Kpsd (v : 'rV[R]_r) : 0 <= (v *m Kx *m v^T) 0 0.
  by move: v; rewrite /Kx -HrK; exact: Hpsd.
have Hroot (j : 'I_r) :
    (0 < nth 0 s j) && (sqrtR (nth 0 s j) * sqrtR (nth 0 s j) == nth 0 s j).
  by apply: Hroots; rewrite mem_nth // Hsz.
have Hpos (j : 'I_r) : 0 < sx 0 j by rewrite mxE; case/andP: (Hroot j).
have Hd (j : 'I_r) : dx 0 j * dx 0 j * sx 0 j = 1.
  rewrite !mxE /inv_sqrt (nth_map 0) ?Hsz //=; case/andP: (Hroot j) => Hx /eqP Hrr.
  by rewrite !div1r -invfM Hrr mulVf // gt_eqF.
have HW := nystroem_exact Ksym Kpsd UtU VtV KE Hpos Hd.
have [HrN HcN _] := diagmatP (inv_sqrt (SF := SR) s).
rewrite size_inv_sqrt Hsz in HrN HcN.
have [G HG] : exists G, assemble sk U (diagmat (inv_sqrt s)) V = Ok G.
  by apply: assemble_defined; rewrite ?HcS ?HrU ?HcU ?HrV ?HrN ?HcN.
have [_ HrG HcG _] := assemble_elem HG.
rewrite HrS in HrG; rewrite HcV in HcG.
have GE : mx_of n r G = mx_of n r sk *m Ux *m diag_mx dx *m Vx.
  rewrite (mx_of_assemble_rect HG HrS HcS HcU HcN HcV).
  by rewrite (@mx_of_diagmat _ sqrtR) ?size_inv_sqrt.
have [GG [HGG [HrGG HcGG] _ GGE]] := @gram_of n r G HrG HcG.
rewrite (Apply_ok Hsel Hk Hs HG); eexists; first by [].
exists GG => //= a b Ha Hb.
have [Hia <- _] := Hentry a b Ha Hb; have [Hib _ _] := Hentry b a Hb Ha.
have Hrow c (Hc : (c < r)%N) (Hic : (nth 0%N sp c < n)%N) :
    row (Ordinal Hic) (mx_of n r G)
    = row (Ordinal Hc) (Kx *m Ux *m diag_mx dx *m Vx).
  rewrite GE -!mulmxA !row_mul; congr (_ *m _).
  apply/rowP=> l; rewrite [LHS]mxE [RHS]mxE !(@mx_of_elem _ sqrtR) /=.
  by have [_ _ ->] := Hentry c l Hc (ltn_ord l).
have := congr1 (fun X : 'M[R]_n => X (Ordinal Hia) (Ordinal Hib)) GGE.
rewrite (@mx_of_elem _ sqrtR) /= => ->.
rewrite -(@mx_of_elem _ sqrtR r r mk (Ordinal Ha) (Ordinal Hb)) -/Kx.
have <- := congr1 (fun X : 'M[R]_r => X (Ordinal Ha) (Ordinal Hb)) HW.
rewrite !mxE; apply: eq_bigr => k _; rewrite ![_^T _ _]mxE.
have := congr1 (fun X : 'rV[R]_r => X 0 k) (Hrow a Ha Hia).
have := congr1 (fun X : 'rV[R]_r => X 0 k) (Hrow b Hb Hib).
by rewrite !mxE => -> ->.
Qed.

End FurtherExact.

(** ** On the examples *)

Section FurtherExamples.

Local Existing Instance LinearKernel.
Local Existing Instance FirstIndices.

Lemma GetKernelMatrix_points_bounds_witness :
  (exists mk sk,
     GetKernelMatrix_points (this world3) data3
       (miniKernel0 (AF := arma3) (this world3))
       (semiKernel0 (AF := arma3) (this world3)) = Ok (mk, sk))
  /\ GetKernelMatrix_points (this world3) data2
       (miniKernel0 (AF := arma3) (this world3))
       (semiKernel0 (AF := arma3) (this world3)) = Err IndexOutOfBounds.
Proof.
have [Hin _] :=
  @GetKernelMatrix_points_bounds _ _ _ (this world3) data3
    (miniKernel0 (AF := arma3) (this world3))
    (semiKernel0 (AF := arma3) (this world3))
    (erefl _) (erefl _) (erefl _) (erefl _).
have [_ Hout] :=
  @GetKernelMatrix_points_bounds _ _ _ (this world3) data2
    (miniKernel0 (AF := arma3) (this world3))
    (semiKernel0 (AF := arma3) (this world3))
    (erefl _) (erefl _) (erefl _) (erefl _).
by split; [apply: Hin | apply: Hout].
Defined.

Lemma Apply_exceptions_witness :
  GetKernelMatrix (this (world_rank 3)) (Indices [:: 0; 1; 2])
    (miniKernel0 (AF := arma2) (this (world_rank 3)))
    (semiKernel0 (AF := arma2) (this (world_rank 3))) = Err IndexOutOfBounds
  /\ exists mk sk U s V,
       [/\ GetKernelMatrix (this world3) idx3
             (miniKernel0 (AF := arma2) (this world3))
             (semiKernel0 (AF := arma2) (this world3)) = Ok (mk, sk),
           svd (Arma := arma2) mk = (U, s, V)
         & assemble sk U (diagmat (inv_sqrt s)) V = Err IncompatibleDimensions].
Proof.
have Hsel2 : (Select (PointSelectionPolicy := FirstIndices)
                (data (this (world_rank 3))) (rank (this (world_rank 3)))
                (rng (world_rank 3))).1 = Ok (Indices [:: 0; 1; 2]).
  by vm_compute.
have H2 : (Apply (AF := arma2) (world_rank 3)).1 = Err IndexOutOfBounds.
  by vm_compute.
have Hsel3 : (Select (PointSelectionPolicy := FirstIndices)
                (data (this world3)) (rank (this world3)) (rng world3)).1
             = Ok idx3 by vm_compute.
have H3 : (Apply (AF := arma2) world3).1 = Err IncompatibleDimensions.
  by vm_compute.
split.
  by case: (Apply_exceptions Hsel2 H2) => [[_ H]|[H _]]; [exact: H | discriminate H].
by case: (Apply_exceptions Hsel3 H3) => [[H _]|[_ H]]; [discriminate H | exact: H].
Defined.

Lemma miniKernel_is_block_of_semiKernel_witness :
  exists2 v, mat_at (Mat 2 2 [:: q 16; q 0; q 0; q 4]) 0 1 = Ok v
           & mat_at (Mat 3 2 [:: q 0; q 0; q 16; q 4; q 0; q 0]) 2 1 = Ok v.
Proof.
have H : GetKernelMatrix_indices (this world3_rank2) [:: 2; 0]
           (miniKernel0 (AF := arma3) (this world3_rank2))
           (semiKernel0 (AF := arma3) (this world3_rank2))
         = Ok (Mat 2 2 [:: q 16; q 0; q 0; q 4],
               Mat 3 2 [:: q 0; q 0; q 16; q 4; q 0; q 0]).
  by vm_compute.
exact: (miniKernel_is_block_of_semiKernel H (i := 0) (j := 1) isT isT).
Defined.

Lemma Apply_ignores_fresh_memory_witness :
  Apply (AF := arma3) world3 = Apply (AF := arma3_addr) world3.
Proof.
have Hsvd (K : mat xrat) : svd (Arma := arma3) K = svd (Arma := arma3_addr) K.
  by [].
exact: (Apply_ignores_fresh_memory world3 Hsvd).
Defined.

Lemma Apply_svd_failure_witness :
  Apply (AF := arma2) world3
  = (Err IncompatibleDimensions,
     World (this world3) (output world3) 0
       (cout world3 ++ log_before_product (AF := arma2) gram3 gram3)).
Proof.
have Hsel : (Select (PointSelectionPolicy := FirstIndices)
               (data (this world3)) (rank (this world3)) (rng world3)).1
            = Ok idx3 by vm_compute.
have Hk : GetKernelMatrix (this world3) idx3
            (miniKernel0 (AF := arma2) (this world3))
            (semiKernel0 (AF := arma2) (this world3)) = Ok (gram3, gram3).
  by vm_compute.
have Hs : svd (Arma := arma2) gram3 = (Mat 0 0 [::], [::], Mat 0 0 [::]).
  by vm_compute.
exact: (Apply_svd_failure Hsel Hk Hs (erefl _) isT).
Defined.

Lemma Apply_returns_witness :
  exists2 w', Apply (AF := arma3) world3 = (Ok tt, w')
            & n_rows (output w') = 3 /\ n_cols (output w') = 3.
Proof.
have Hsel : (Select (PointSelectionPolicy := FirstIndices)
               (data (this world3)) (rank (this world3)) (rng world3)).1
            = Ok idx3 by vm_compute.
have Hlm : landmark_set (this world3) idx3 by vm_compute.
have Hk : GetKernelMatrix (this world3) idx3
            (miniKernel0 (AF := arma3) (this world3))
            (semiKernel0 (AF := arma3) (this world3)) = Ok (gram3, gram3).
  by vm_compute.
have Hsvd mk sk :
    GetKernelMatrix (this world3) idx3
      (miniKernel0 (AF := arma3) (this world3))
      (semiKernel0 (AF := arma3) (this world3)) = Ok (mk, sk) ->
    svd_full mk (svd (Arma := arma3) mk).
  by rewrite Hk => -[<- _]; vm_compute.
exact: (Apply_returns Hsel Hlm Hsvd).
Defined.

Lemma gram_ignores_transpose_witness :
  let G := Mat 3 3 [:: rat_of 0; rat_of 1; rat_of 0;  rat_of 0; rat_of 0; rat_of 4;
                       rat_of 2; rat_of 0; rat_of 0] in
  let G' := Mat 3 3 [:: rat_of 2; rat_of 0; rat_of 0;  rat_of 0; rat_of 1; rat_of 0;
                        rat_of 0; rat_of 0; rat_of 4] in
  mat_mul (SF := rat_scalar) G (trans (SF := rat_scalar) G)
  = mat_mul (SF := rat_scalar) G' (trans (SF := rat_scalar) G').
Proof.
move=> G G'.
pose N := diagmat (SF := rat_scalar)
            (inv_sqrt (SF := rat_scalar) [:: rat_of 16; rat_of 4; rat_of 1]).
have HG : assemble (SF := rat_scalar) (gram_axes3 rat_of) (cycle3 rat_of) N
            (cycle3 rat_of) = Ok G by vm_compute.
have HG' : assemble_Vt (SF := rat_scalar) (gram_axes3 rat_of) (cycle3 rat_of) N
             (cycle3 rat_of) = Ok G' by vm_compute.
have HV : mat_mul (SF := rat_scalar) (trans (SF := rat_scalar) (cycle3 rat_of))
            (cycle3 rat_of)
          = Ok (identity_mat (SF := rat_scalar) (n_cols (cycle3 rat_of))).
  by vm_compute.
exact: (@gram_ignores_transpose _ sqrt_rat _ _ _ _ _ _ HG HG' HV (erefl _)).
Defined.

Lemma Apply_exact_on_landmarks_witness :
  exists2 w', Apply (SF := rat_scalar) (AF := arma_rank2_rat) (KT := rat_kernel)
                world3_rank2_rat = (Ok tt, w')
    & exists2 GG, mat_mul (SF := rat_scalar) (output w')
                    (trans (SF := rat_scalar) (output w')) = Ok GG
        & forall a b, a < 2 -> b < 2 ->
            elem (SF := rat_scalar) GG (nth 0 [:: 0; 1] a) (nth 0 [:: 0; 1] b)
            = Evaluate (KernelType := rat_kernel)
                (point (SF := rat_scalar) (this world3_rank2_rat) (nth 0 [:: 0; 1] a))
                (point (SF := rat_scalar) (this world3_rank2_rat) (nth 0 [:: 0; 1] b)).
Proof.
pose mk := gram_rank2 rat_of.
pose sk : mat rat :=
  Mat 3 2 [:: rat_of 4; rat_of 0; rat_of 0;  rat_of 0; rat_of 1; rat_of 0].
have Hsel : (Select (PointSelectionPolicy := FirstIndices)
               (data (this world3_rank2_rat)) (rank (this world3_rank2_rat))
               (rng world3_rank2_rat)).1 = Ok (Indices [:: 0; 1]).
  by vm_compute.
have Hk : GetKernelMatrix (SF := rat_scalar) (KT := rat_kernel)
            (this world3_rank2_rat) (Indices [:: 0; 1])
            (miniKernel0 (AF := arma_rank2_rat) (this world3_rank2_rat))
            (semiKernel0 (AF := arma_rank2_rat) (this world3_rank2_rat))
          = Ok (mk, sk) by vm_compute.
have Hs : svd (Arma := arma_rank2_rat) mk
          = (eye2 rat_of, [:: rat_of 4; rat_of 1], eye2 rat_of) by vm_compute.
have Hsym (a b : seq rat) :
    Evaluate (KernelType := rat_kernel) a b
    = Evaluate (KernelType := rat_kernel) b a.
  have HC : commutative (fmul (Scalar := rat_scalar)) by exact: GRing.mulrC.
  exact: (LinearKernel_sym a b HC).
have Hpsd : psd mk.
  have -> : mk = diagmat (SF := rat_scalar) [:: rat_of 4; rat_of 1].
    by vm_compute.
  by apply: psd_diagmat; vm_compute.
have Hfac : svd_factors (SF := rat_scalar) mk (eye2 rat_of)
              [:: rat_of 4; rat_of 1] (eye2 rat_of) by vm_compute.
have Hroots : exact_roots sqrt_rat [:: rat_of 4; rat_of 1] by vm_compute.
exact: (@Apply_exact_on_landmarks _ sqrt_rat nat arma_rank2_rat rat_kernel
          FirstIndices world3_rank2_rat _ _ _ _ _ _
          Hsel Hk Hs Hsym Hpsd Hfac Hroots).
Defined.

Lemma Apply_early_failure_witness :
  Apply (AF := arma2) (world_rank 3)
  = (Err IndexOutOfBounds,
     World (this (world_rank 3)) (output (world_rank 3)) 0 (cout (world_rank 3))).
Proof.
have Hsel : (Select (PointSelectionPolicy := FirstIndices)
               (data (this (world_rank 3))) (rank (this (world_rank 3)))
               (rng (world_rank 3))).1 = Ok (Indices [:: 0; 1; 2]).
  by vm_compute.
have Hk : GetKernelMatrix (this (world_rank 3)) (Indices [:: 0; 1; 2])
            (miniKernel0 (AF := arma2) (this (world_rank 3)))
            (semiKernel0 (AF := arma2) (this (world_rank 3)))
          = Err IndexOutOfBounds by vm_compute.
apply: (Apply_early_failure (AF := arma2) (w := world_rank 3)
          (e := IndexOutOfBounds)).
by right; exists (Indices [:: 0; 1; 2]).
Defined.

Lemma Apply_rank_above_n_witness :
  Apply (AF := arma2) (world_rank 3)
  = (Err IndexOutOfBounds,
     World (this (world_rank 3)) (output (world_rank 3)) 0 (cout (world_rank 3))).
Proof.
have Hsel : (Select (PointSelectionPolicy := FirstIndices)
               (data (this (world_rank 3))) (rank (this (world_rank 3)))
               (rng (world_rank 3))).1 = Ok (Indices [:: 0; 1; 2]).
  by vm_compute.
exact: (Apply_rank_above_n (AF := arma2) Hsel isT (erefl _) isT).
Defined.

End FurtherExamples.
